(** * shadcn-multi-select: a model of [multi-select.tsx]

    The component keeps no data of its own besides a few pieces of React
    state.  Its selection is a JavaScript [Map] rebuilt from the [values]
    prop on every render, and its only loop is the badge-overflow scan of
    [MultiSelectValue].  This file embeds

    - the insertion-ordered [Map] the code relies on ([JsMap]),
    - [MultiSelect] (the context it provides, [toggleValue]),
    - [MultiSelectValue] (its rendered tree and its layout effect),
    - [MultiSelectContent] (the search input),
    - a store-level reading of [toggleValue] with object identities,

    and proves the properties the specification states about them. *)

From stdpp Require Import base decidable option list strings gmap.
From Stdlib Require Import ZArith.

Set Default Proof Using "Type".
Local Open Scope Z_scope.
Local Open Scope nat_scope.

(* ===================================================================== *)
(** ** JavaScript [Map] with string keys

    A [Map] iterates in insertion order; [set] on a key that is present
    replaces the value and leaves the entry where it is; [delete] removes
    the entry.  The model is the list of entries in iteration order. *)
(* ===================================================================== *)

Module JsMap.
Section JsMap.
Context {V : Type}.

Definition t : Type := list (string * V).

(** [m.entries()], [m.keys()], [m.values()], [m.size] *)
Definition entries (m : t) : list (string * V) := m.
Definition keys (m : t) : list string := m.*1.
Definition values (m : t) : list V := m.*2.
Definition size (m : t) : nat := length m.

(** [m.get(k)] *)
Fixpoint get (k : string) (m : t) : option V :=
  match m with
  | [] => None
  | (k', v) :: m' => if decide (k = k') then Some v else get k m'
  end.

(** [m.has(k)] *)
Fixpoint has (k : string) (m : t) : bool :=
  match m with
  | [] => false
  | (k', _) :: m' => if decide (k = k') then true else has k m'
  end.

(** [m.set(k, v)] *)
Fixpoint set (k : string) (v : V) (m : t) : t :=
  match m with
  | [] => [(k, v)]
  | (k', v') :: m' =>
      if decide (k = k') then (k', v) :: m' else (k', v') :: set k v m'
  end.

(** [m.delete(k)] *)
Fixpoint delete (k : string) (m : t) : t :=
  match m with
  | [] => []
  | (k', v') :: m' =>
      if decide (k = k') then m' else (k', v') :: delete k m'
  end.

(** [new Map(iterable)]: starts empty and calls [set] for each pair. *)
Definition step (m : t) (e : string * V) : t := set e.1 e.2 m.
Definition of_entries (es : list (string * V)) : t := foldl step [] es.

(** The keys of a list in the order in which they first occur. *)
Definition first_occurrences (ks : list string) : list string :=
  reverse (remove_dups (reverse ks)).

(** The representation invariant: one entry per key. *)
Definition wf (m : t) : Prop := NoDup (keys m).

End JsMap.
Global Arguments t : clear implicits.
End JsMap.

(* ===================================================================== *)
(** ** The component tree

    [T] is the type of selectable values, [H] the state of the host
    application (what the callback props act on) and [R] the type of the
    nodes [renderItem] produces. *)
(* ===================================================================== *)

(** The click event handed to [onClick]; only its propagation flag matters. *)
Record ClickEvent := { propagationStopped : bool }.

Definition stopPropagation (e : ClickEvent) : ClickEvent :=
  {| propagationStopped := true |}.

Inductive OverflowBehavior := wrap | wrap_when_open | cutoff.

Global Instance OverflowBehavior_eq_dec : EqDecision OverflowBehavior.
Proof. solve_decision. Defined.

(** The [search] prop of [MultiSelectContent]:
    [boolean | { placeholder?: string; emptyMessage?: string }]. *)
Inductive SearchProp :=
| SearchBool (b : bool)
| SearchObject (placeholder emptyMessage : option string).

(** A badge element of the trigger, as the layout effect sees it:
    [el.style.display]. *)
Record HTMLElement := { style_display : string }.

(** What the browser reports for the container given the current styles of
    its badges. *)
Record Layout := {
  scrollWidth : list HTMLElement → Z;
  clientWidth : list HTMLElement → Z;
}.

Inductive Outcome (A : Type) :=
| Returned (a : A)
| TypeError      (** property access on [undefined] *)
| OutOfFuel.
Global Arguments Returned {A} a.
Global Arguments TypeError {A}.
Global Arguments OutOfFuel {A}.

Section Component.
Context {T H R : Type}.

(** [MultiSelectProps<T>] *)
Record MultiSelectProps := {
  values : list T;
  onValuesChange : option (list T → H → H);
  inputValue : option string;
  onInputChange : option (string → H → H);
  getId : T → string;
  renderItem : T → bool → R;
}.

(** The host state together with the [useState] cells of the components. *)
Record World := {
  host : H;
  st_open : bool;
  st_internalSearch : string;
  st_overflowAmount : nat;
}.

Definition callHost (f : H → H) (w : World) : World :=
  {| host := f (host w); st_open := st_open w;
     st_internalSearch := st_internalSearch w;
     st_overflowAmount := st_overflowAmount w |}.

Definition setOpen (b : bool) (w : World) : World :=
  {| host := host w; st_open := b;
     st_internalSearch := st_internalSearch w;
     st_overflowAmount := st_overflowAmount w |}.

Definition setInternalSearch (s : string) (w : World) : World :=
  {| host := host w; st_open := st_open w;
     st_internalSearch := s;
     st_overflowAmount := st_overflowAmount w |}.

Definition setOverflowAmount (n : nat) (w : World) : World :=
  {| host := host w; st_open := st_open w;
     st_internalSearch := st_internalSearch w;
     st_overflowAmount := n |}.

(* ------------------------------------------------------------------- *)
(** *** [MultiSelect] *)

(** [inputValue ?? internalSearch] *)
Definition searchValue (p : MultiSelectProps) (w : World) : string :=
  match inputValue p with
  | Some s => s
  | None => st_internalSearch w
  end.

(** [onInputChange ?? setInternalSearch] *)
Definition setSearchValue (p : MultiSelectProps) : string → World → World :=
  match onInputChange p with
  | Some f => λ s, callHost (f s)
  | None => setInternalSearch
  end.

(** [new Map(values.map((v) => [getId(v), v]))] *)
Definition selectedMap (p : MultiSelectProps) : JsMap.t T :=
  JsMap.of_entries ((λ v, (getId p v, v)) <$> values p).

(** The list handed to [onValuesChange]: [[...next.values()]]. *)
Definition nextValues (p : MultiSelectProps) (val : T) : list T :=
  let id := getId p val in
  let next := JsMap.of_entries (JsMap.entries (selectedMap p)) in
  let next :=
    if JsMap.has id next then JsMap.delete id next
    else JsMap.set id val next in
  JsMap.values next.

(** [onValuesChange?.([...next.values()])] *)
Definition toggleValue (p : MultiSelectProps) (val : T) : World → World :=
  match onValuesChange p with
  | Some f => callHost (f (nextValues p val))
  | None => λ w, w
  end.

(** [MultiSelectCtxType<T>].  The registry of mounted items ([items],
    [onItemAdded]) is rendered by nobody and is left out. *)
Record MultiSelectCtxType := {
  ctx_open : bool;
  ctx_setOpen : bool → World → World;
  ctx_selectedMap : JsMap.t T;
  ctx_toggleValue : T → World → World;
  ctx_getId : T → string;
  ctx_searchValue : string;
  ctx_setSearchValue : string → World → World;
  ctx_renderItem : T → bool → R;
}.

(** The context value [MultiSelect] provides on a render in world [w]. *)
Definition MultiSelect (p : MultiSelectProps) (w : World) : MultiSelectCtxType :=
  {| ctx_open := st_open w;
     ctx_setOpen := setOpen;
     ctx_selectedMap := selectedMap p;
     ctx_toggleValue := toggleValue p;
     ctx_getId := getId p;
     ctx_searchValue := searchValue p w;
     ctx_setSearchValue := setSearchValue p;
     ctx_renderItem := renderItem p |}.

(* ------------------------------------------------------------------- *)
(** *** [MultiSelectValue]: the rendered tree *)

Record MultiSelectValueProps := {
  placeholder : option string;
  clickToRemove : option bool;                  (** default [true] *)
  overflowBehavior : option OverflowBehavior;   (** default ["wrap-when-open"] *)
}.

(** A [<Badge data-selected-item ...>] of the trigger. *)
Record BadgeNode := {
  badge_key : string;
  badge_onClick : option (ClickEvent → World → ClickEvent * World);
  badge_children : R;
  badge_xIcon : bool;
}.

Inductive ValueNode :=
| PlaceholderSpan (text : option string)
| BadgeRow (flexWrap : bool) (badges : list BadgeNode)
           (overflowBadge : option nat).   (** [+{overflowAmount}] *)

Definition shouldWrap (vp : MultiSelectValueProps) (ctx : MultiSelectCtxType) : bool :=
  let overflowBehavior := default wrap_when_open (overflowBehavior vp) in
  bool_decide (overflowBehavior = wrap)
  || (bool_decide (overflowBehavior = wrap_when_open) && ctx_open ctx).

Definition selectedBadge (vp : MultiSelectValueProps) (ctx : MultiSelectCtxType)
    (entry : string * T) : BadgeNode :=
  let clickToRemove := default true (clickToRemove vp) in
  let '(id, value) := entry in
  {| badge_key := id;
     badge_onClick :=
       if clickToRemove
       then Some (λ e w, (stopPropagation e, ctx_toggleValue ctx value w))
       else None;
     badge_children := ctx_renderItem ctx value true;
     badge_xIcon := clickToRemove |}.

Definition MultiSelectValue (vp : MultiSelectValueProps) (ctx : MultiSelectCtxType)
    (w : World) : ValueNode :=
  let overflowAmount := st_overflowAmount w in
  if Nat.eqb (JsMap.size (ctx_selectedMap ctx)) 0
  then PlaceholderSpan (placeholder vp)
  else
    BadgeRow (shouldWrap vp ctx)
      (selectedBadge vp ctx <$> JsMap.entries (ctx_selectedMap ctx))
      (if Nat.ltb 0 overflowAmount && negb (shouldWrap vp ctx)
       then Some overflowAmount else None).

End Component.
Global Arguments MultiSelectProps : clear implicits.
Global Arguments World : clear implicits.
Global Arguments MultiSelectCtxType : clear implicits.
Global Arguments BadgeNode : clear implicits.
Global Arguments ValueNode : clear implicits.

(* ===================================================================== *)
(** ** [MultiSelectValue]: the overflow effect

    The effect reads [valueRef.current], collects the badge elements
    ([querySelectorAll("[data-selected-item]")], in document order), clears
    their [display], and hides badges from the last one backwards while the
    container overflows. *)
(* ===================================================================== *)

Definition setDisplay (d : string) (el : HTMLElement) : HTMLElement :=
  {| style_display := d |}.

Definition isHidden (el : HTMLElement) : bool :=
  bool_decide (style_display el = "none").

(** State of the [for] loop.  [entered] and [hiddenAt] are bookkeeping of the
    model: how often the loop body was entered, and the indices written with
    ["none"], latest first. *)
Record ScanState := {
  childrenEls : list HTMLElement;
  hidden : nat;
  entered : nat;
  hiddenAt : list nat;
}.

Definition fits (lay : Layout) (els : list HTMLElement) : bool :=
  bool_decide (scrollWidth lay els ≤ clientWidth lay els)%Z.

(** [for (let i = childrenEls.length - 1; i >= 0; i--) { ... }] run for at
    most [fuel] entries into the body. *)
Fixpoint scan (lay : Layout) (fuel : nat) (i : Z) (s : ScanState) : Outcome ScanState :=
  if bool_decide (0 ≤ i)%Z then
    match fuel with
    | O => OutOfFuel
    | S fuel' =>
        let s := {| childrenEls := childrenEls s; hidden := hidden s;
                    entered := S (entered s); hiddenAt := hiddenAt s |} in
        if fits lay (childrenEls s) then Returned s                      (* break *)
        else
          match childrenEls s !! Z.to_nat i with
          | None => TypeError
          | Some el =>
              scan lay fuel' (i - 1)%Z
                {| childrenEls := <[Z.to_nat i := setDisplay "none" el]> (childrenEls s);
                   hidden := S (hidden s);
                   entered := entered s;
                   hiddenAt := Z.to_nat i :: hiddenAt s |}
          end
    end
  else Returned s.

(** What one run of the effect leaves behind: the badge elements under
    [valueRef.current] (if any), the argument of [setOverflowAmount], and the
    bookkeeping of the scan. *)
Record EffectRun := {
  run_ref : option (list HTMLElement);
  run_amount : nat;
  run_entered : nat;
  run_hiddenAt : list nat;
}.

Definition overflowEffect (lay : Layout) (fuel : nat)
    (valueRef : option (list HTMLElement)) (shouldWrap : bool) : Outcome EffectRun :=
  match valueRef with
  | None =>
      Returned {| run_ref := None; run_amount := 0;
                  run_entered := 0; run_hiddenAt := [] |}
  | Some container =>
      if shouldWrap then
        Returned {| run_ref := Some container; run_amount := 0;
                    run_entered := 0; run_hiddenAt := [] |}
      else
        let els := setDisplay "" <$> container in
        match scan lay fuel (Z.of_nat (length els) - 1)%Z
                {| childrenEls := els; hidden := 0; entered := 0; hiddenAt := [] |} with
        | Returned s =>
            Returned {| run_ref := Some (childrenEls s); run_amount := hidden s;
                        run_entered := entered s; run_hiddenAt := hiddenAt s |}
        | TypeError => TypeError
        | OutOfFuel => OutOfFuel
        end
  end.

(** The [+N] badge of a rendered tree, if it has one. *)
Definition overflowBadgeOf {H R} (view : ValueNode H R) : option nat :=
  match view with
  | PlaceholderSpan _ => None
  | BadgeRow _ _ overflowBadge => overflowBadge
  end.

(** React attaches [valueRef] to the badge row when it commits a render:
    the ref is [null] exactly when the placeholder was rendered instead. *)
Definition committedRef {H R} (view : ValueNode H R) (els : list HTMLElement)
    : option (list HTMLElement) :=
  match view with
  | PlaceholderSpan _ => None
  | BadgeRow _ _ _ => Some els
  end.

(** The badge elements with the last [k] of [n] hidden. *)
Definition trailingHidden (n k : nat) : list HTMLElement :=
  replicate (n - k) {| style_display := "" |}
  ++ replicate k {| style_display := "none" |}.

(* ===================================================================== *)
(** ** [MultiSelectContent] *)
(* ===================================================================== *)

Section Content.
Context {T H R : Type}.

(** [<CommandInput value=... onValueChange=... placeholder=... />] *)
Record CommandInputNode := {
  input_value : string;
  input_onValueChange : string → World H → World H;
  input_placeholder : option string;
}.

Record ContentNode := {
  commandInput : option CommandInputNode;
  commandEmpty : option string;
}.

Definition isObject (search : SearchProp) : bool :=
  match search with SearchObject _ _ => true | SearchBool _ => false end.

Definition truthy (search : SearchProp) : bool :=
  match search with SearchObject _ _ => true | SearchBool b => b end.

Definition MultiSelectContent (search : option SearchProp)
    (ctx : MultiSelectCtxType T H R) : ContentNode :=
  let search := default (SearchBool true) search in
  let canSearch := isObject search || truthy search in
  {| commandInput :=
       if canSearch then
         Some {| input_value := ctx_searchValue ctx;
                 input_onValueChange := ctx_setSearchValue ctx;
                 input_placeholder :=
                   match search with
                   | SearchObject placeholder _ => placeholder
                   | SearchBool _ => Some "Search..."
                   end |}
       else None;
     commandEmpty :=
       match search with
       | SearchObject _ emptyMessage => emptyMessage
       | SearchBool _ => Some "No results"
       end |}.

End Content.
Global Arguments CommandInputNode : clear implicits.
Global Arguments ContentNode : clear implicits.

(* ===================================================================== *)
(** ** [toggleValue] on a store of objects

    Arrays and maps are JavaScript objects: the [values] prop and
    [selectedMap] are references, and [set]/[delete] update the object they
    are called on.  This reading of [MultiSelect] keeps the references, to
    tell which objects a call writes to. *)
(* ===================================================================== *)

Module Store.
Section Store.
Context {T H R : Type}.

Definition loc : Type := positive.

Inductive obj :=
| ArrayObj (elems : list T)
| MapObj (m : JsMap.t T).

Definition alloc (o : obj) (h : gmap loc obj) : loc * gmap loc obj :=
  let l := fresh (dom h) in (l, <[l := o]> h).

Definition readArray (a : loc) (h : gmap loc obj) : option (list T) :=
  match h !! a with Some (ArrayObj vs) => Some vs | _ => None end.

Definition readMap (m : loc) (h : gmap loc obj) : option (JsMap.t T) :=
  match h !! m with Some (MapObj e) => Some e | _ => None end.

(** [new Map(arr.map((v) => [getId(v), v]))] *)
Definition newMapOfValues (getId : T → string) (arr : loc) (h : gmap loc obj)
    : option (loc * gmap loc obj) :=
  vs ← readArray arr h;
  Some (alloc (MapObj (JsMap.of_entries ((λ v, (getId v, v)) <$> vs))) h).

(** [new Map(src)] *)
Definition newMapOfMap (src : loc) (h : gmap loc obj) : option (loc * gmap loc obj) :=
  e ← readMap src h;
  Some (alloc (MapObj (JsMap.of_entries (JsMap.entries e))) h).

(** [m.has(k)], [m.delete(k)], [m.set(k, v)], [[...m.values()]] *)
Definition mapHas (m : loc) (k : string) (h : gmap loc obj) : option bool :=
  e ← readMap m h; Some (JsMap.has k e).

Definition mapDelete (m : loc) (k : string) (h : gmap loc obj) : option (gmap loc obj) :=
  e ← readMap m h; Some (<[m := MapObj (JsMap.delete k e)]> h).

Definition mapSet (m : loc) (k : string) (v : T) (h : gmap loc obj) : option (gmap loc obj) :=
  e ← readMap m h; Some (<[m := MapObj (JsMap.set k v e)]> h).

Definition spreadValues (m : loc) (h : gmap loc obj) : option (loc * gmap loc obj) :=
  e ← readMap m h; Some (alloc (ArrayObj (JsMap.values e)) h).

(** The body of [MultiSelect] up to [selectedMap], for the [values] array
    at [valuesRef]. *)
Definition render (p : MultiSelectProps T H R) (valuesRef : loc) (h : gmap loc obj)
    : option (loc * gmap loc obj) :=
  newMapOfValues (getId p) valuesRef h.

(** [toggleValue], closed over the map at [selectedMap].  The result is
    the array [onValuesChange] is about to be called with, if it is called,
    and the store at that point. *)
Definition toggleValue (p : MultiSelectProps T H R) (selectedMap : loc) (val : T)
    (h : gmap loc obj) : option (option loc * gmap loc obj) :=
  let id := getId p val in
  '(next, h) ← newMapOfMap selectedMap h;
  h ← match mapHas next id h with
      | Some true => mapDelete next id h
      | Some false => mapSet next id val h
      | None => None
      end;
  match onValuesChange p with
  | Some _ => '(arr, h) ← spreadValues next h; Some (Some arr, h)
  | None => Some (None, h)
  end.

End Store.
Global Arguments obj : clear implicits.
End Store.

(* ===================================================================== *)
(** ** The host side

    A controlled host re-renders [MultiSelect] with the list it was given
    ([values={selected} onValuesChange={setSelected}] in the README). *)
(* ===================================================================== *)

Definition withValues {T H R} (p : MultiSelectProps T H R) (vs : list T)
    : MultiSelectProps T H R :=
  {| values := vs;
     onValuesChange := onValuesChange p;
     inputValue := inputValue p;
     onInputChange := onInputChange p;
     getId := getId p;
     renderItem := renderItem p |}.

(** The selection after the host has taken over what a toggle of [val]
    reported. *)
Definition toggled {T H R} (p : MultiSelectProps T H R) (val : T)
    : MultiSelectProps T H R :=
  withValues p (nextValues p val).

(** An id-keyed map: one entry per key, each keyed by its value's id. *)
Definition keyed {T H R} (p : MultiSelectProps T H R) (m : JsMap.t T) : Prop :=
  JsMap.wf m ∧ ∀ k v, (k, v) ∈ m → k = getId p v.

(** Two maps with the same ids mapping to the same values. *)
Definition sameMap {V} (m1 m2 : JsMap.t V) : Prop :=
  ∀ k, JsMap.get k m1 = JsMap.get k m2.

(** Toggling twice read as an involution: the id-keyed map comes back, the
    list itself comes back when [v] was not selected, and the same entries
    are present when it was. *)
Definition toggleTwiceInvolution {T H R} (p : MultiSelectProps T H R) (v : T) : Prop :=
  let twice := toggled (toggled p v) v in
  sameMap (selectedMap twice) (selectedMap p)
  ∧ (JsMap.has (getId p v) (selectedMap p) = false → values twice = values p)
  ∧ (JsMap.get (getId p v) (selectedMap p) = Some v →
       JsMap.entries (selectedMap twice) ≡ₚ JsMap.entries (selectedMap p)).

(** The README's example: frameworks identified by their [id] field. *)
Record Framework := { fw_id : string; fw_name : string }.

Definition react : Framework := {| fw_id := "1"; fw_name := "React" |}.
Definition vue : Framework := {| fw_id := "2"; fw_name := "Vue" |}.
Definition angular : Framework := {| fw_id := "3"; fw_name := "Angular" |}.
Definition svelte : Framework := {| fw_id := "4"; fw_name := "Svelte" |}.

Definition demoProps (selected : list Framework)
    : MultiSelectProps Framework (list Framework) string :=
  {| values := selected;
     onValuesChange := Some (λ vs _, vs);
     inputValue := None;
     onInputChange := None;
     getId := fw_id;
     renderItem := λ item isSelected,
       if isSelected then "[x] " +:+ fw_name item else fw_name item |}.

(** A second object for the id ["1"]. *)
Definition reactRenamed : Framework := {| fw_id := "1"; fw_name := "REACT" |}.

Definition demoWorld : World (list Framework) :=
  {| host := []; st_open := false; st_internalSearch := "";
     st_overflowAmount := 0 |}.

(** A row in which every shown badge takes 40 pixels of a 100 pixel wide
    trigger. *)
Definition demoLayout : Layout :=
  {| scrollWidth := λ els, (40 * Z.of_nat (length (filter (λ el, isHidden el = false) els)))%Z;
     clientWidth := λ _, 100%Z |}.

(** A row that never fits. *)
Definition tightLayout : Layout :=
  {| scrollWidth := λ _, 1%Z; clientWidth := λ _, 0%Z |}.

Definition fiveBadges : list HTMLElement :=
  [ {| style_display := "" |}; {| style_display := "none" |};
    {| style_display := "" |}; {| style_display := "" |};
    {| style_display := "none" |} ].

(** A store holding the [values] array [[react; vue]] at address 1. *)
Definition demoStore : gmap Store.loc (Store.obj Framework) :=
  {[ 1%positive := Store.ArrayObj [react; vue] ]}.

Definition demoValueProps : MultiSelectValueProps :=
  {| placeholder := Some "Select frameworks..."; clickToRemove := None;
     overflowBehavior := Some cutoff |}.

(* ===================================================================== *)
(** ** The registry of mounted items

    [MultiSelect] keeps a second map, [items], and hands [onItemAdded] to
    its items.  Equality on [T] is the sameness of values that [Map] goes
    by (SameValueZero): [+0] and [-0] are one value, and NaN is the same
    value as NaN.  [===] differs from it on NaN alone, which is not [===]
    to itself; [nan] tells which values of [T] are NaN.  [undef] is the
    element of [T] that is JavaScript's [undefined], if [T] has one
    ([prev.get(id)] is [undefined] for a key that is absent). *)
(* ===================================================================== *)

Section Registry.
Context {T : Type} `{EqDecision T}.

(** [x === y] *)
Definition strictEq (nan : T → bool) (x y : T) : bool :=
  bool_decide (x = y) && negb (nan y).

(** [prev.get(id) === value] *)
Definition getIsValue (nan : T → bool) (undef : option T) (prev : JsMap.t T)
    (id : string) (value : T) : bool :=
  match JsMap.get id prev with
  | Some x => strictEq nan x value
  | None => bool_decide (undef = Some value)
  end.

(** The updater [onItemAdded] passes to [setItems]:
    [(prev) => prev.get(id) === value ? prev : new Map(prev).set(id, value)] *)
Definition onItemAdded (nan : T → bool) (undef : option T) (id : string) (value : T)
    (prev : JsMap.t T) : JsMap.t T :=
  if getIsValue nan undef prev id value then prev
  else JsMap.set id value (JsMap.of_entries (JsMap.entries prev)).

End Registry.

(** The same updater on the store: [prev] is a reference, and the result is
    the reference the state is set to. *)
Definition onItemAddedRef {T} `{EqDecision T} (nan : T → bool) (undef : option T)
    (id : string) (value : T) (prev : Store.loc) (h : gmap Store.loc (Store.obj T))
    : option (Store.loc * gmap Store.loc (Store.obj T)) :=
  e ← Store.readMap prev h;
  if getIsValue nan undef e id value then Some (prev, h)
  else
    '(next, h) ← Store.newMapOfMap prev h;
    h ← Store.mapSet next id value h;
    Some (next, h).

(* ===================================================================== *)
(** ** [MultiSelectItem] *)
(* ===================================================================== *)

Section Item.
Context {T H R P : Type} `{EqDecision T}.

(** [<CommandItem {...props} onSelect={...}>{...}</CommandItem>]: the
    attributes written after the spread, and the children, win over
    whatever [props] carries under the same names. *)
Record CommandItemNode := {
  item_props : P;
  item_onSelect : World H → World H;
  item_children : R;
}.

Definition MultiSelectItem (ctx : MultiSelectCtxType T H R) (value : T) (props : P)
    : CommandItemNode :=
  let id := ctx_getId ctx value in
  let isSelected := JsMap.has id (ctx_selectedMap ctx) in
  {| item_props := props;
     item_onSelect := ctx_toggleValue ctx value;
     item_children := ctx_renderItem ctx value isSelected |}.

(** The item's effect: [onItemAdded(id, value)]. *)
Definition MultiSelectItem_effect (nan : T → bool) (undef : option T)
    (ctx : MultiSelectCtxType T H R) (value : T) (items : JsMap.t T) : JsMap.t T :=
  onItemAdded nan undef (ctx_getId ctx value) value items.

(** The registry after the items for [vs] have mounted, in order, into an
    empty one ([useState(new Map())]). *)
Definition mountItems (nan : T → bool) (undef : option T)
    (ctx : MultiSelectCtxType T H R) (vs : list T) : JsMap.t T :=
  foldl (λ items v, MultiSelectItem_effect nan undef ctx v items) [] vs.

End Item.
Global Arguments CommandItemNode : clear implicits.

(** The badges of a rendered tree. *)
Definition badgesOf {H R} (view : ValueNode H R) : list (BadgeNode H R) :=
  match view with
  | PlaceholderSpan _ => []
  | BadgeRow _ badges _ => badges
  end.

(* ===================================================================== *)
(** ** One round of [MultiSelectValue]

    Render, commit (the ref is attached, the badge elements [els] are the
    ones in the document) and the overflow effect with its state update.
    The badge elements stay in the document from one round to the next:
    their keys do not change and the render sets no [style] on them. *)
(* ===================================================================== *)

Definition effectRound {T H R} (lay : Layout) (fuel : nat)
    (p : MultiSelectProps T H R) (vp : MultiSelectValueProps)
    (w : World H) (els : list HTMLElement)
    : Outcome (World H * option (list HTMLElement)) :=
  let ctx := MultiSelect p w in
  match overflowEffect lay fuel
          (committedRef (MultiSelectValue vp ctx w) els) (shouldWrap vp ctx) with
  | Returned run => Returned (setOverflowAmount (run_amount run) w, run_ref run)
  | TypeError => TypeError
  | OutOfFuel => OutOfFuel
  end.

(** [===] on the frameworks. *)
Global Instance Framework_eq_dec : EqDecision Framework.
Proof. solve_decision. Defined.

(** A value type with [undefined] in it: [string | undefined]. *)
Definition demoUndefined : option (option string) := Some None.

Definition demoWrapWhenOpen : MultiSelectValueProps :=
  {| placeholder := None; clickToRemove := None; overflowBehavior := None |}.

Definition readOnlyProps (selected : list Framework)
    : MultiSelectProps Framework (list Framework) string :=
  {| values := selected;
     onValuesChange := None;
     inputValue := Some "fixed";
     onInputChange := None;
     getId := fw_id;
     renderItem := λ item _, fw_name item |}.

Definition hostSearchProps
    : MultiSelectProps Framework (list Framework) string :=
  {| values := [];
     onValuesChange := None;
     inputValue := None;
     onInputChange := Some (λ _ h, h);
     getId := fw_id;
     renderItem := λ item _, fw_name item |}.

Definition solid : Framework := {| fw_id := "5"; fw_name := "Solid" |}.

Definition fiveSelected : list Framework := [react; vue; angular; svelte; solid].

(** A trigger that is wide enough for two badges of 40 pixels. *)
Definition twoBadges : list HTMLElement :=
  [ {| style_display := "none" |}; {| style_display := "none" |} ].

(** No framework is NaN. *)
Definition noNaN : Framework → bool := λ _, false.

(** Numbers with NaN: [None] is NaN. *)
Definition isNaN (v : option Z) : bool :=
  match v with None => true | Some _ => false end.

(** A store holding a registry that maps ["a"] to NaN at address 1. *)
Definition demoNumberStore : gmap Store.loc (Store.obj (option Z)) :=
  {[ 1%positive := Store.MapObj [("a", None)] ]}.

(** A store holding a registry with React in it at address 1. *)
Definition demoItemsStore : gmap Store.loc (Store.obj Framework) :=
  {[ 1%positive := Store.MapObj [("1", react)] ]}.

(* ===================================================================== *)
(** * Properties *)
(* ===================================================================== *)

(** ** The [Map] operations *)

Module JsMapFacts.
Import JsMap.
Section JsMapFacts.
Context {V : Type}.
Implicit Types (m acc : JsMap.t V) (es : list (string * V)).
Implicit Types (k : string) (v : V).

Lemma has_true k m : has k m = true ↔ k ∈ keys m.
Proof.
  induction m as [|[k' v'] m IH]; simpl.
  - split; [done | by intros ?%elem_of_nil].
  - case_decide as Hk; subst.
    + split; [intros _; left | done].
    + rewrite IH. split; [by right | intros Hin].
      apply elem_of_cons in Hin as [? | ?]; [congruence | done].
Qed.

Lemma has_false k m : has k m = false ↔ k ∉ keys m.
Proof.
  rewrite <- has_true. destruct (has k m); split; congruence.
Qed.

Lemma has_get k m : has k m = true ↔ is_Some (get k m).
Proof.
  induction m as [|[k' v'] m IH]; simpl.
  - split; [done | by intros [? ?]].
  - case_decide; [split; eauto | done].
Qed.

Lemma get_None k m : get k m = None ↔ k ∉ keys m.
Proof.
  rewrite <- has_false. pose proof (has_get k m) as Hg.
  destruct (has k m), (get k m) eqn:E; split; try done.
  - intros _. destruct Hg as [Hg _]. destruct (Hg eq_refl); done.
  - intros _. destruct Hg as [_ Hg]. by specialize (Hg (mk_is_Some _ _ eq_refl)).
Qed.

Lemma get_Some_elem k v m : get k m = Some v → (k, v) ∈ m.
Proof.
  induction m as [|[k' v'] m IH]; simpl; [done |].
  case_decide; subst.
  - intros [= ->]. left.
  - intros ?. right. auto.
Qed.

Lemma elem_get k v m : wf m → (k, v) ∈ m → get k m = Some v.
Proof.
  unfold wf, keys. induction m as [|[k' v'] m IH]; simpl.
  - by intros _ ?%elem_of_nil.
  - intros [Hnotin Hnd]%NoDup_cons Hin.
    apply elem_of_cons in Hin as [[= -> ->] | Hin].
    + by rewrite decide_True.
    + rewrite decide_False; [auto |].
      intros ->. apply Hnotin. apply (list_elem_of_fmap_2 fst) in Hin. done.
Qed.

Lemma keys_set k v m :
  keys (set k v m) = if has k m then keys m else keys m ++ [k].
Proof.
  induction m as [|[k' v'] m IH]; simpl; [done |].
  case_decide; simpl; [done |].
  unfold keys in *. rewrite IH. by destruct (has k m).
Qed.

Lemma set_fresh k v m : k ∉ keys m → set k v m = m ++ [(k, v)].
Proof.
  induction m as [|[k' v'] m IH]; simpl; [done |].
  intros Hnotin. apply not_elem_of_cons in Hnotin as [Hne Hnotin].
  rewrite decide_False by done. by rewrite IH.
Qed.

Lemma get_set k v k' m :
  get k' (set k v m) = if decide (k' = k) then Some v else get k' m.
Proof.
  induction m as [|[k0 v0] m IH]; simpl.
  - done.
  - destruct (decide (k = k0)) as [-> | Hne]; simpl.
    + by destruct (decide (k' = k0)).
    + rewrite IH. destruct (decide (k' = k0)) as [-> | ?]; [|done].
      by rewrite decide_False.
Qed.

Lemma set_wf k v m : wf m → wf (set k v m).
Proof.
  unfold wf. rewrite keys_set. destruct (has k m) eqn:E; [done |].
  intros Hnd. apply NoDup_app. split_and!; [done | | apply NoDup_singleton].
  intros x Hx ->%list_elem_of_singleton. by apply has_false in E.
Qed.

Lemma keys_delete_sub k m x : x ∈ keys (delete k m) → x ∈ keys m.
Proof.
  induction m as [|[k' v'] m IH]; simpl; [done |].
  case_decide; simpl.
  - by right.
  - intros [-> | ?]%elem_of_cons; [left | right; auto].
Qed.

Lemma delete_wf k m : wf m → wf (delete k m).
Proof.
  unfold wf. induction m as [|[k' v'] m IH]; simpl; [done |].
  intros [Hnotin Hnd]%NoDup_cons. case_decide; simpl; [done |].
  apply NoDup_cons. split; [| auto].
  intros Hin. apply Hnotin. by eapply keys_delete_sub.
Qed.

Lemma delete_absent k m : k ∉ keys m → delete k m = m.
Proof.
  induction m as [|[k' v'] m IH]; simpl; [done |].
  intros [Hne Hnotin]%not_elem_of_cons.
  rewrite decide_False by done. by rewrite IH.
Qed.

(** Deleting a key takes exactly its entry out; the entries before and
    after it stay as they are. *)
Lemma delete_middle k v m1 m2 :
  k ∉ keys m1 → delete k (m1 ++ (k, v) :: m2) = m1 ++ m2.
Proof.
  induction m1 as [|[k' v'] m1 IH]; simpl.
  - intros _. by rewrite decide_True.
  - intros [Hne Hnotin]%not_elem_of_cons.
    rewrite decide_False by done. by rewrite IH.
Qed.

Lemma get_delete k k' m :
  wf m → get k' (delete k m) = if decide (k' = k) then None else get k' m.
Proof.
  unfold wf. induction m as [|[k0 v0] m IH]; simpl.
  - intros _. by case_decide.
  - intros [Hnotin Hnd]%NoDup_cons.
    destruct (decide (k = k0)) as [-> | Hne]; simpl.
    + destruct (decide (k' = k0)) as [-> | ?]; [| done].
      by apply get_None.
    + rewrite IH by done.
      destruct (decide (k' = k0)) as [-> | ?]; [| done].
      by rewrite decide_False.
Qed.

Lemma delete_not_in k m : wf m → k ∉ keys (delete k m).
Proof.
  intros Hwf. apply get_None. rewrite get_delete by done.
  by rewrite decide_True.
Qed.

(** A present key splits the map around its single entry. *)
Lemma has_split k m :
  has k m = true →
  ∃ m1 v m2, m = m1 ++ (k, v) :: m2 ∧ (k ∉ keys m1) ∧ get k m = Some v.
Proof.
  induction m as [|[k' v'] m IH]; simpl; [done |].
  case_decide as Hk; subst.
  - intros _. exists [], v', m. split_and!; [done | apply not_elem_of_nil | done].
  - intros Hhas. apply IH in Hhas as (m1 & v & m2 & -> & Hnotin & Hget).
    exists ((k', v') :: m1), v, m2. split_and!; [done | | done].
    simpl. by apply not_elem_of_cons.
Qed.

Lemma foldl_step_wf es acc : wf acc → wf (foldl step acc es).
Proof.
  revert acc. induction es as [|e es IH]; intros acc Hwf; simpl; [done |].
  apply IH. by apply set_wf.
Qed.

Lemma of_entries_wf es : wf (of_entries es).
Proof. apply (foldl_step_wf es []). apply NoDup_nil_2. Qed.

(** The value stored under a key is the one of the last pair with that
    key: reading the pairs backwards, the first hit. *)
Lemma get_foldl_step k es acc :
  get k (foldl step acc es) =
    match get k (reverse es) with Some v => Some v | None => get k acc end.
Proof.
  revert acc. induction es as [|[k0 v0] es IH]; intros acc; simpl; [done |].
  rewrite IH, reverse_cons. unfold step. simpl. rewrite get_set.
  assert (Hsnoc : ∀ l : JsMap.t V, get k (l ++ [(k0, v0)]) =
            match get k l with
            | Some v => Some v
            | None => if decide (k = k0) then Some v0 else None
            end).
  { induction l as [|[k1 v1] l IHl]; simpl; [by case_decide |].
    destruct (decide (k = k1)); [done | apply IHl]. }
  rewrite Hsnoc. destruct (get k (reverse es)); [done |]. by case_decide.
Qed.

Lemma get_of_entries k es : get k (of_entries es) = get k (reverse es).
Proof.
  unfold of_entries. rewrite (get_foldl_step k es []). simpl.
  by destruct (get k (reverse es)).
Qed.

Lemma keys_foldl_snoc es e :
  foldl step [] (es ++ [e]) = set e.1 e.2 (foldl step [] es).
Proof. by rewrite foldl_app. Qed.

Lemma keys_of_entries es : keys (of_entries es) = first_occurrences es.*1.
Proof.
  unfold of_entries, first_occurrences.
  induction es as [|e es IH] using rev_ind; [done |].
  rewrite keys_foldl_snoc, keys_set, fmap_app, reverse_app. simpl.
  rewrite IH.
  destruct (has e.1 (foldl step [] es)) eqn:E.
  - apply has_true in E. rewrite IH in E.
    rewrite elem_of_reverse, elem_of_remove_dups in E.
    destruct (decide_rel elem_of e.1 (reverse es.*1)) as [_ | Hn]; [done |].
    by destruct Hn.
  - apply has_false in E. rewrite IH in E.
    destruct (decide_rel elem_of e.1 (reverse es.*1)) as [Hin | _].
    + destruct E. by rewrite elem_of_reverse, elem_of_remove_dups.
    + by rewrite reverse_cons.
Qed.

(** [new Map(m)] copies a map entry for entry. *)
Lemma foldl_step_app acc m :
  NoDup (keys (acc ++ m)) → foldl step acc m = acc ++ m.
Proof.
  revert acc. induction m as [|[k v] m IH]; intros acc Hnd; simpl.
  - by rewrite app_nil_r.
  - assert (Hfresh : k ∉ keys acc).
    { unfold keys in Hnd. rewrite fmap_app in Hnd.
      apply NoDup_app in Hnd as (_ & Hdisj & _).
      intros Hin. apply (Hdisj k Hin). left. }
    replace (step acc (k, v)) with (acc ++ [(k, v)])
      by (symmetry; by apply set_fresh).
    rewrite IH; by rewrite <- app_assoc.
Qed.

Lemma of_entries_copy m : wf m → of_entries (entries m) = m.
Proof. intros Hwf. unfold of_entries. by rewrite foldl_step_app. Qed.

End JsMapFacts.
End JsMapFacts.

(* ===================================================================== *)
(** ** The selected map *)
(* ===================================================================== *)

Section Selection.
Context {T H R : Type}.
Implicit Types (p : MultiSelectProps T H R) (val : T) (w : World H).

Lemma selectedMap_wf p : JsMap.wf (selectedMap p).
Proof. apply JsMapFacts.of_entries_wf. Qed.

Lemma selectedMap_keys p :
  JsMap.keys (selectedMap p) = JsMap.first_occurrences (getId p <$> values p).
Proof.
  unfold selectedMap. rewrite JsMapFacts.keys_of_entries.
  f_equal. rewrite <- list_fmap_compose. done.
Qed.

(** The value stored for an id is that of its last occurrence in [values]. *)
Lemma selectedMap_get p id :
  JsMap.get id (selectedMap p) = last (filter (λ v, getId p v = id) (values p)).
Proof.
  unfold selectedMap. rewrite JsMapFacts.get_of_entries.
  induction (values p) as [|x l IH] using rev_ind; [done |].
  rewrite fmap_app, reverse_app, filter_app. simpl.
  rewrite filter_cons, filter_nil.
  destruct (decide (id = getId p x)) as [-> | Hne].
  - rewrite decide_True by done. by rewrite last_snoc.
  - rewrite decide_False by done. by rewrite app_nil_r.
Qed.

Lemma selectedMap_has p id :
  JsMap.has id (selectedMap p) = true ↔ id ∈ getId p <$> values p.
Proof.
  rewrite JsMapFacts.has_true, selectedMap_keys. unfold JsMap.first_occurrences.
  by rewrite elem_of_reverse, elem_of_remove_dups, elem_of_reverse.
Qed.

(** Every entry is keyed by the id of its own value. *)
Lemma selectedMap_entry p k v :
  (k, v) ∈ selectedMap p → k = getId p v ∧ v ∈ values p.
Proof.
  intros Hin. apply JsMapFacts.elem_get in Hin; [| apply selectedMap_wf].
  rewrite selectedMap_get in Hin. apply last_Some in Hin as [l' Hl'].
  assert (Hv : v ∈ filter (λ v, getId p v = k) (values p)).
  { rewrite Hl'. apply elem_of_app. right. left. }
  apply list_elem_of_filter in Hv as [<- ?]. done.
Qed.

Lemma keyed_values_ids (f : T → string) (m : JsMap.t T) :
  (∀ k v, (k, v) ∈ m → k = f v) → f <$> JsMap.values m = JsMap.keys m.
Proof.
  unfold JsMap.values, JsMap.keys.
  induction m as [|[k v] m IH]; intros Hkey; [done |].
  rewrite !fmap_cons. simpl. f_equal.
  - symmetry. apply Hkey. left.
  - apply IH. intros k' v' Hin. apply Hkey. by right.
Qed.

Lemma selectedMap_values_ids p :
  getId p <$> JsMap.values (selectedMap p) = JsMap.keys (selectedMap p).
Proof.
  apply keyed_values_ids. intros k v Hin. by apply selectedMap_entry in Hin as [? _].
Qed.

(** [new Map(selectedMap)] has the entries of [selectedMap], so the list a
    toggle reports is read off [selectedMap] itself. *)
Lemma nextValues_unfold p val :
  nextValues p val =
    if JsMap.has (getId p val) (selectedMap p)
    then JsMap.values (JsMap.delete (getId p val) (selectedMap p))
    else JsMap.values (selectedMap p) ++ [val].
Proof.
  unfold nextValues.
  rewrite JsMapFacts.of_entries_copy by apply selectedMap_wf.
  destruct (JsMap.has (getId p val) (selectedMap p)) eqn:E; [done |].
  apply JsMapFacts.has_false in E.
  rewrite JsMapFacts.set_fresh by done.
  unfold JsMap.values. by rewrite fmap_app.
Qed.

Lemma selectedMap_keyed p : keyed p (selectedMap p).
Proof.
  split; [apply selectedMap_wf |].
  intros k v Hin. by apply selectedMap_entry in Hin as [? _].
Qed.

Lemma keyed_withValues p vs m : keyed p m → keyed (withValues p vs) m.
Proof. done. Qed.

Lemma keyed_delete p id m : keyed p m → keyed p (JsMap.delete id m).
Proof.
  intros [Hwf Hkey]. split; [by apply JsMapFacts.delete_wf |].
  intros k v Hin. apply Hkey.
  clear Hwf Hkey. induction m as [|[k' v'] m IH]; simpl in *; [done |].
  case_decide; [by right |].
  apply elem_of_cons in Hin as [-> | Hin]; [left | right; auto].
Qed.

Lemma keyed_snoc p val m :
  keyed p m → getId p val ∉ JsMap.keys m → keyed p (m ++ [(getId p val, val)]).
Proof.
  intros [Hwf Hkey] Hfresh. split.
  - rewrite <- JsMapFacts.set_fresh by done. by apply JsMapFacts.set_wf.
  - intros k v [Hin | Hin%list_elem_of_singleton]%elem_of_app; [auto |].
    by injection Hin as -> ->.
Qed.

(** A host that feeds the values of an id-keyed map back in gets that
    very map as its next [selectedMap]. *)
Lemma selectedMap_of_values p m :
  keyed p m → selectedMap (withValues p (JsMap.values m)) = m.
Proof.
  intros [Hwf Hkey]. unfold selectedMap. simpl.
  replace ((λ v, (getId p v, v)) <$> JsMap.values m) with (JsMap.entries m).
  { by apply JsMapFacts.of_entries_copy. }
  unfold JsMap.entries, JsMap.values. clear Hwf.
  induction m as [|[k v] m IH]; [done |].
  rewrite fmap_cons. simpl. f_equal.
  - f_equal. apply Hkey. left.
  - apply IH. intros k' v' Hin. apply Hkey. by right.
Qed.

Lemma selectedMap_toggled p val :
  selectedMap (toggled p val) =
    if JsMap.has (getId p val) (selectedMap p)
    then JsMap.delete (getId p val) (selectedMap p)
    else selectedMap p ++ [(getId p val, val)].
Proof.
  unfold toggled. rewrite nextValues_unfold.
  destruct (JsMap.has (getId p val) (selectedMap p)) eqn:E.
  - apply selectedMap_of_values, keyed_delete, selectedMap_keyed.
  - apply JsMapFacts.has_false in E.
    replace (JsMap.values (selectedMap p) ++ [val])
      with (JsMap.values (selectedMap p ++ [(getId p val, val)]))
      by (unfold JsMap.values; by rewrite fmap_app).
    apply selectedMap_of_values, keyed_snoc; [apply selectedMap_keyed | done].
Qed.

Lemma selectedMap_toggled_twice p val :
  selectedMap (toggled (toggled p val) val) =
    if JsMap.has (getId p val) (selectedMap p)
    then JsMap.delete (getId p val) (selectedMap p) ++ [(getId p val, val)]
    else selectedMap p.
Proof.
  rewrite selectedMap_toggled. change (getId (toggled p val)) with (getId p).
  rewrite selectedMap_toggled.
  destruct (JsMap.has (getId p val) (selectedMap p)) eqn:E.
  - assert (Hgone : getId p val ∉ JsMap.keys (JsMap.delete (getId p val) (selectedMap p)))
      by apply JsMapFacts.delete_not_in, selectedMap_wf.
    apply JsMapFacts.has_false in Hgone. by rewrite Hgone.
  - apply JsMapFacts.has_false in E.
    assert (Hnow : JsMap.has (getId p val) (selectedMap p ++ [(getId p val, val)]) = true).
    { apply JsMapFacts.has_true. unfold JsMap.keys. rewrite fmap_app.
      apply elem_of_app. right. left. }
    rewrite Hnow, JsMapFacts.delete_middle by done. by rewrite app_nil_r.
Qed.

Lemma selectedMap_nodup p :
  NoDup (getId p <$> values p) →
  JsMap.values (selectedMap p) = values p.
Proof.
  intros Hnd. unfold selectedMap, JsMap.of_entries.
  rewrite JsMapFacts.foldl_step_app.
  - simpl. unfold JsMap.values. rewrite <- list_fmap_compose.
    apply list_fmap_id.
  - simpl. unfold JsMap.keys. by rewrite <- list_fmap_compose.
Qed.

(* ------------------------------------------------------------------- *)
(** *** Toggling *)

(** C1: [toggleValue val] calls [onValuesChange] with the values of the map
    built from [values] after a membership toggle: when the map has an entry
    under [getId val], that entry is taken out and the entries before and
    after it stay in order; otherwise [val] is added at the end. *)
Theorem toggleValue_reports_toggled_map p val (f : list T → H → H) w :
  onValuesChange p = Some f →
  ∃ reported,
    toggleValue p val w = callHost (f reported) w ∧
    match JsMap.get (getId p val) (selectedMap p) with
    | Some x =>
        ∃ before after,
          selectedMap p = before ++ (getId p val, x) :: after ∧
          (getId p val ∉ JsMap.keys (before ++ after)) ∧
          reported = JsMap.values (before ++ after)
    | None => reported = JsMap.values (selectedMap p) ++ [val]
    end.
Proof.
  intros Hf. exists (nextValues p val). split.
  { unfold toggleValue. by rewrite Hf. }
  rewrite nextValues_unfold.
  destruct (JsMap.has (getId p val) (selectedMap p)) eqn:E.
  - destruct (JsMapFacts.has_split _ _ E) as (before & x & after & Hsplit & Hnotin & ->).
    exists before, after. split; [done |].
    pose proof (selectedMap_wf p) as Hwf. unfold JsMap.wf, JsMap.keys in Hwf.
    rewrite Hsplit, fmap_app, fmap_cons in Hwf. simpl in Hwf.
    apply NoDup_app in Hwf as (_ & _ & [Hafter _]%NoDup_cons).
    split.
    + unfold JsMap.keys. rewrite fmap_app. intros [? | ?]%elem_of_app; done.
    + rewrite Hsplit. by rewrite JsMapFacts.delete_middle.
  - apply JsMapFacts.has_false, JsMapFacts.get_None in E. by rewrite E.
Qed.

(** C7 (amended): after two toggles of [v] the selection has the ids it
    had, and every id other than [getId v] keeps its value.  If [getId v]
    was not selected, the map is the original one and the list is the list
    of its values, which is [values] itself when no two elements of
    [values] share an id.  If it was selected, the list is the original
    map's values without the entry of [getId v], followed by [v]; the id
    now maps to [v], so the map is the original one when [v] is the value
    that was stored. *)
Theorem toggle_twice p v :
  let id := getId p v in
  let twice := toggled (toggled p v) v in
  (∀ k, k ∈ JsMap.keys (selectedMap twice) ↔ k ∈ JsMap.keys (selectedMap p))
  ∧ (∀ k, k ≠ id → JsMap.get k (selectedMap twice) = JsMap.get k (selectedMap p))
  ∧ (JsMap.has id (selectedMap p) = false →
       selectedMap twice = selectedMap p
       ∧ values twice = JsMap.values (selectedMap p)
       ∧ (NoDup (getId p <$> values p) → values twice = values p))
  ∧ (JsMap.has id (selectedMap p) = true →
       values twice = JsMap.values (JsMap.delete id (selectedMap p)) ++ [v]
       ∧ JsMap.get id (selectedMap twice) = Some v
       ∧ (JsMap.get id (selectedMap p) = Some v →
            sameMap (selectedMap twice) (selectedMap p))).
Proof.
  intros id twice.
  pose proof (selectedMap_toggled_twice p v) as Hmap. fold id twice in Hmap.
  pose proof (selectedMap_wf p) as Hwf.
  assert (Hvals : values twice = JsMap.values (selectedMap twice)).
  { subst twice. unfold toggled at 1. simpl. rewrite nextValues_unfold.
    change (getId (toggled p v)) with (getId p). fold id.
    rewrite (selectedMap_toggled p v). fold id.
    rewrite (selectedMap_toggled_twice p v). fold id.
    destruct (JsMap.has id (selectedMap p)) eqn:E.
    - assert (Hgone : id ∉ JsMap.keys (JsMap.delete id (selectedMap p)))
        by by apply JsMapFacts.delete_not_in.
      apply JsMapFacts.has_false in Hgone. rewrite Hgone.
      unfold JsMap.values. by rewrite fmap_app.
    - apply JsMapFacts.has_false in E.
      assert (Hnow : JsMap.has id (selectedMap p ++ [(id, v)]) = true).
      { apply JsMapFacts.has_true. unfold JsMap.keys. rewrite fmap_app.
        apply elem_of_app. right. left. }
      rewrite Hnow, JsMapFacts.delete_middle by done. by rewrite app_nil_r. }
  assert (Hget : ∀ k, JsMap.get k (JsMap.delete id (selectedMap p) ++ [(id, v)]) =
                      if decide (k = id) then Some v else JsMap.get k (selectedMap p)).
  { intros k. rewrite <- JsMapFacts.set_fresh by by apply JsMapFacts.delete_not_in.
    rewrite JsMapFacts.get_set. case_decide; [done |].
    rewrite JsMapFacts.get_delete by done. by rewrite decide_False. }
  destruct (JsMap.has id (selectedMap p)) eqn:E; rewrite Hmap.
  - split_and!; try done.
    + intros k. rewrite <- !JsMapFacts.has_true, !JsMapFacts.has_get, Hget.
      case_decide as Hk; [| done]. subst k.
      rewrite <- JsMapFacts.has_get, E. split; eauto.
    + intros k Hk. rewrite Hget. by rewrite decide_False.
    + intros _. split_and!.
      * rewrite Hvals, Hmap. unfold JsMap.values. by rewrite fmap_app.
      * rewrite Hget. by rewrite decide_True.
      * intros Hstored k. rewrite Hget. case_decide; [by subst k |done].
  - split_and!; try done.
    intros _. split_and!; [done | by rewrite Hvals, Hmap |].
    intros Hnd. rewrite Hvals, Hmap. by apply selectedMap_nodup.
Qed.

End Selection.

(** C1, on the README's frameworks: with React and Vue selected, toggling
    Vue reports the selection without it. *)
Lemma toggleValue_reports_toggled_map_witness :
  ∃ reported,
    toggleValue (demoProps [react; vue]) vue demoWorld
      = callHost ((λ vs _, vs) reported) demoWorld ∧
    match JsMap.get (fw_id vue) (selectedMap (demoProps [react; vue])) with
    | Some x =>
        ∃ before after,
          selectedMap (demoProps [react; vue]) = before ++ (fw_id vue, x) :: after ∧
          (fw_id vue ∉ JsMap.keys (before ++ after)) ∧
          reported = JsMap.values (before ++ after)
    | None => reported = JsMap.values (selectedMap (demoProps [react; vue])) ++ [vue]
    end.
Proof.
  apply (toggleValue_reports_toggled_map (demoProps [react; vue]) vue (λ vs _, vs) demoWorld).
  reflexivity.
Defined.

(** C7: toggling twice is not an involution.  Toggling an object whose id
    is selected under a different object twice leaves the id mapped to the
    new object; and when [values] repeats an id, toggling an unselected
    value twice returns the deduplicated list, not [values]. *)
Lemma toggle_twice_not_involution :
  ¬ toggleTwiceInvolution (demoProps [react]) reactRenamed
  ∧ ¬ toggleTwiceInvolution (demoProps [react; reactRenamed]) vue.
Proof.
  split.
  - intros [Hsame _]. specialize (Hsame "1"). vm_compute in Hsame. discriminate.
  - intros (_ & Hlist & _). vm_compute in Hlist. specialize (Hlist eq_refl).
    discriminate.
Qed.

(* ===================================================================== *)
(** ** What [MultiSelectValue] renders *)
(* ===================================================================== *)

Section Rendering.
Context {T H R : Type}.
Implicit Types (p : MultiSelectProps T H R) (vp : MultiSelectValueProps).
Implicit Types (w : World H) (val : T).

Lemma selectedMap_empty p : JsMap.size (selectedMap p) = 0 ↔ values p = [].
Proof.
  split.
  - intros Hsize. apply length_zero_iff_nil in Hsize.
    destruct (values p) as [|x l] eqn:E; [done |].
    assert (Hin : getId p x ∈ getId p <$> values p) by (rewrite E; left).
    apply selectedMap_has, JsMapFacts.has_true in Hin.
    unfold JsMap.size in Hsize. rewrite Hsize in Hin. by apply elem_of_nil in Hin.
  - intros Hnil. unfold selectedMap. by rewrite Hnil.
Qed.

Lemma nextValues_values p val :
  nextValues p val = JsMap.values (selectedMap (toggled p val)).
Proof.
  rewrite nextValues_unfold, selectedMap_toggled.
  destruct (JsMap.has (getId p val) (selectedMap p)); [done |].
  unfold JsMap.values. by rewrite fmap_app.
Qed.

Lemma nextValues_ids_NoDup p val : NoDup (getId p <$> nextValues p val).
Proof.
  rewrite nextValues_values.
  change (getId p) with (getId (toggled p val)).
  rewrite selectedMap_values_ids. apply selectedMap_wf.
Qed.

Lemma badge_keys vp (ctx : MultiSelectCtxType T H R) (m : JsMap.t T) :
  badge_key <$> (selectedBadge vp ctx <$> m) = JsMap.keys m.
Proof.
  unfold JsMap.keys. induction m as [|[k v] m IH]; [done |].
  rewrite !fmap_cons. simpl. f_equal. apply IH.
Qed.

Lemma filter_absent (l : list string) (x : string) :
  x ∉ l → filter (λ k, k = x) l = [].
Proof.
  induction l as [|y l IH]; [done |].
  intros [Hne Hnotin]%not_elem_of_cons.
  rewrite filter_cons, decide_False by done. auto.
Qed.

Lemma count_in_NoDup (l : list string) (x : string) :
  NoDup l → x ∈ l → length (filter (λ k, k = x) l) = 1.
Proof.
  induction 1 as [|y l Hnotin Hnd IH]; [by intros ?%elem_of_nil |].
  rewrite filter_cons. intros [-> | Hin]%elem_of_cons.
  - rewrite decide_True by done. simpl. by rewrite filter_absent.
  - rewrite decide_False; [auto |]. by intros ->.
Qed.

Lemma badges_with_key vp (ctx : MultiSelectCtxType T H R) (m : JsMap.t T) id :
  length (filter (λ b, badge_key b = id) (selectedBadge vp ctx <$> m)) =
  length (filter (λ k, k = id) (JsMap.keys m)).
Proof.
  unfold JsMap.keys. induction m as [|[k v] m IH]; [done |].
  rewrite !fmap_cons.
  rewrite !filter_cons.
  change (badge_key (selectedBadge vp ctx (k, v))) with k.
  change ((k, v).1) with k.
  case_decide; [rewrite !length_cons |]; by rewrite IH.
Qed.

Lemma MultiSelectValue_nonempty p vp w w' :
  values p ≠ [] →
  MultiSelectValue vp (MultiSelect p w) w' =
    BadgeRow (shouldWrap vp (MultiSelect p w))
      (selectedBadge vp (MultiSelect p w) <$> JsMap.entries (selectedMap p))
      (if Nat.ltb 0 (st_overflowAmount w') && negb (shouldWrap vp (MultiSelect p w))
       then Some (st_overflowAmount w') else None).
Proof.
  intros Hne. unfold MultiSelectValue. simpl.
  destruct (Nat.eqb_spec (JsMap.size (selectedMap p)) 0) as [Hz | _]; [| done].
  by apply selectedMap_empty in Hz.
Qed.

(** C8: with an empty [values] the selected map is empty and
    [MultiSelectValue] renders the placeholder span and nothing else,
    whatever the overflow behaviour, the open state and the stored overflow
    amount. *)
Theorem empty_selection_renders_placeholder p :
  values p = [] →
  JsMap.size (selectedMap p) = 0
  ∧ ∀ vp w w',
      MultiSelectValue vp (MultiSelect p w) w' = PlaceholderSpan (placeholder vp).
Proof.
  intros Hnil. apply selectedMap_empty in Hnil as Hsize. split; [done |].
  intros vp w w'. unfold MultiSelectValue. simpl. by rewrite Hsize.
Qed.

(** C5: for a non-empty selection [MultiSelectValue] renders a row with one
    badge per entry of the selected map, in the map's order, which is the
    order in which the ids first occur in [values].  The badge of an entry
    shows [renderItem value true]; unless [clickToRemove] is [false] its
    click handler stops the propagation of the event and calls
    [toggleValue] on the entry's value, which reports the selection without
    that entry. *)
Theorem badges_follow_selected_map p vp w w' :
  values p ≠ [] →
  ∃ flexWrap badges overflowBadge,
    MultiSelectValue vp (MultiSelect p w) w' = BadgeRow flexWrap badges overflowBadge
    ∧ length badges = JsMap.size (selectedMap p)
    ∧ badge_key <$> badges = JsMap.first_occurrences (getId p <$> values p)
    ∧ ∀ i id value,
        JsMap.entries (selectedMap p) !! i = Some (id, value) →
        ∃ b,
          badges !! i = Some b
          ∧ badge_key b = id
          ∧ badge_children b = renderItem p value true
          ∧ match clickToRemove vp with
            | Some false => badge_onClick b = None
            | _ =>
                ∃ handler,
                  badge_onClick b = Some handler
                  ∧ ∀ e w0,
                      handler e w0 = (stopPropagation e, toggleValue p value w0)
                      ∧ propagationStopped (handler e w0).1 = true
            end
          ∧ nextValues p value = JsMap.values (JsMap.delete id (selectedMap p))
          ∧ id ∉ getId p <$> nextValues p value.
Proof.
  intros Hne. rewrite (MultiSelectValue_nonempty p vp w w' Hne).
  eexists _, _, _. split; [done |]. split_and!.
  - by rewrite length_fmap.
  - by rewrite badge_keys, <- selectedMap_keys.
  - intros i id value Hi. unfold JsMap.entries in *.
    exists (selectedBadge vp (MultiSelect p w) (id, value)).
    assert (Hid : id = getId p value).
    { apply list_elem_of_lookup_2 in Hi. by apply selectedMap_entry in Hi as [? _]. }
    assert (Hhas : JsMap.has (getId p value) (selectedMap p) = true).
    { apply JsMapFacts.has_true. rewrite <- Hid.
      apply list_elem_of_lookup_2 in Hi.
      by apply (list_elem_of_fmap_2 fst) in Hi. }
    assert (Hnext : nextValues p value = JsMap.values (JsMap.delete id (selectedMap p))).
    { by rewrite nextValues_unfold, Hhas, Hid. }
    split_and!; try done.
    + by rewrite list_lookup_fmap, Hi.
    + simpl. destruct (clickToRemove vp) as [[|]|]; simpl; eauto.
    + rewrite Hnext.
      rewrite (keyed_values_ids (getId p)).
      * apply JsMapFacts.delete_not_in, selectedMap_wf.
      * apply (keyed_delete p), selectedMap_keyed.
Qed.

(** C10: the selected map has one entry per id, and so have the maps that
    [delete] and [set] make of it and the selection a toggle hands to the
    host.  For an id that occurs in [values], however often, the map holds
    the last element with that id, exactly one badge carries the id, and the
    list reported by a toggle of a value with that id has no element with
    the id left. *)
Theorem one_entry_per_id p vp w w' :
  JsMap.wf (selectedMap p)
  ∧ (∀ id val,
       JsMap.wf (JsMap.delete id (selectedMap p))
       ∧ JsMap.wf (JsMap.set id val (selectedMap p)))
  ∧ (∀ val,
       JsMap.wf (selectedMap (toggled p val))
       ∧ NoDup (getId p <$> nextValues p val))
  ∧ (∀ id,
       JsMap.get id (selectedMap p) = last (filter (λ v, getId p v = id) (values p)))
  ∧ (∀ id,
       id ∈ getId p <$> values p →
       (∃ flexWrap badges overflowBadge,
          MultiSelectValue vp (MultiSelect p w) w'
            = BadgeRow flexWrap badges overflowBadge
          ∧ length (filter (λ b, badge_key b = id) badges) = 1)
       ∧ ∀ val, getId p val = id → id ∉ getId p <$> nextValues p val).
Proof.
  pose proof (selectedMap_wf p) as Hwf. split_and!; [done | | | |].
  - intros id val. split; [by apply JsMapFacts.delete_wf | by apply JsMapFacts.set_wf].
  - intros val. split; [apply selectedMap_wf | apply nextValues_ids_NoDup].
  - apply selectedMap_get.
  - intros id Hid. split.
    + assert (Hne : values p ≠ []).
      { intros Hnil. rewrite Hnil in Hid. by apply elem_of_nil in Hid. }
      rewrite (MultiSelectValue_nonempty p vp w w' Hne).
      eexists _, _, _. split; [done |].
      rewrite badges_with_key. apply count_in_NoDup; [done |].
      by apply JsMapFacts.has_true, selectedMap_has.
    + intros val <-. apply selectedMap_has in Hid.
      rewrite nextValues_unfold, Hid.
      rewrite (keyed_values_ids (getId p)).
      * by apply JsMapFacts.delete_not_in.
      * apply (keyed_delete p), selectedMap_keyed.
Qed.

End Rendering.

(* ===================================================================== *)
(** ** The overflow scan *)
(* ===================================================================== *)

Section Overflow.
Variable lay : Layout.

Lemma setDisplay_all (container : list HTMLElement) :
  setDisplay "" <$> container = trailingHidden (length container) 0.
Proof.
  unfold trailingHidden. rewrite Nat.sub_0_r, app_nil_r.
  induction container as [|el l IH]; [done |].
  rewrite fmap_cons, IH. done.
Qed.

Lemma trailingHidden_length n k : k ≤ n → length (trailingHidden n k) = n.
Proof.
  intros Hk. unfold trailingHidden.
  rewrite length_app, !length_replicate. lia.
Qed.

Lemma trailingHidden_lookup n k i el :
  k ≤ n →
  trailingHidden n k !! i = Some el →
  i < n ∧ (isHidden el = true ↔ n - k ≤ i).
Proof.
  intros Hk Hi. unfold trailingHidden in Hi.
  apply lookup_app_Some in Hi as [Hi | [Hge Hi]].
  - apply lookup_replicate in Hi as [-> Hlt]. split; [lia |].
    change (isHidden _) with false. split; [done | lia].
  - rewrite length_replicate in Hge, Hi.
    apply lookup_replicate in Hi as [-> Hlt]. split; [lia |].
    change (isHidden _) with true. split; [lia | done].
Qed.

(** Hiding the last badge still shown extends the hidden suffix by one. *)
Lemma trailingHidden_step n h :
  h < n →
  trailingHidden n h !! (n - h - 1) = Some {| style_display := "" |}
  ∧ <[n - h - 1 := {| style_display := "none" |}]> (trailingHidden n h)
      = trailingHidden n (S h).
Proof.
  intros Hh. unfold trailingHidden.
  replace (n - h) with (S (n - S h)) by lia.
  replace (S (n - S h) - 1) with (n - S h) by lia.
  rewrite replicate_S_end, <- !app_assoc.
  split.
  - rewrite lookup_app_r by (rewrite length_replicate; lia).
    rewrite length_replicate, Nat.sub_diag. done.
  - rewrite insert_app_r_alt by (rewrite length_replicate; lia).
    rewrite length_replicate, Nat.sub_diag. done.
Qed.

Lemma scan_exit fuel i s : (i < 0)%Z → scan lay fuel i s = Returned s.
Proof.
  intros Hi. destruct fuel; simpl; by rewrite bool_decide_false by lia.
Qed.

Lemma scan_enter fuel i s :
  (0 ≤ i)%Z →
  scan lay (S fuel) i s =
    let s' := {| childrenEls := childrenEls s; hidden := hidden s;
                 entered := S (entered s); hiddenAt := hiddenAt s |} in
    if fits lay (childrenEls s) then Returned s'
    else
      match childrenEls s !! Z.to_nat i with
      | None => TypeError
      | Some el =>
          scan lay fuel (i - 1)%Z
            {| childrenEls := <[Z.to_nat i := setDisplay "none" el]> (childrenEls s);
               hidden := S (hidden s);
               entered := S (entered s);
               hiddenAt := Z.to_nat i :: hiddenAt s |}
      end.
Proof. intros Hi. simpl. by rewrite bool_decide_true by lia. Qed.

(** The loop invariant: with the last [h] of [n] badges hidden and the
    index at the last badge still shown, the scan returns with the last [k]
    hidden, where [k] is the first count from [h] on at which the container
    fits, or [n]. *)
Lemma scan_from n d : ∀ h fuel e,
  n = h + d → d ≤ fuel →
  ∃ k s,
    scan lay fuel (Z.of_nat d - 1)%Z
      {| childrenEls := trailingHidden n h; hidden := h;
         entered := e; hiddenAt := seq d h |} = Returned s
    ∧ h ≤ k ≤ n
    ∧ childrenEls s = trailingHidden n k
    ∧ hidden s = k
    ∧ hiddenAt s = seq (n - k) k
    ∧ entered s = e + (k - h) + (if bool_decide (k < n) then 1 else 0)
    ∧ (∀ j, h ≤ j < k → fits lay (trailingHidden n j) = false)
    ∧ (k < n → fits lay (trailingHidden n k) = true).
Proof.
  induction d as [|d IH]; intros h fuel e Hn Hfuel.
  - exists h, {| childrenEls := trailingHidden n h; hidden := h;
                 entered := e; hiddenAt := seq 0 h |}.
    rewrite scan_exit by lia. simpl.
    replace (n - h) with 0 by lia.
    rewrite bool_decide_false by lia.
    split_and!; try done; try lia.
  - destruct fuel as [|fuel]; [lia |].
    rewrite scan_enter by lia. cbn zeta. cbn [childrenEls hidden entered hiddenAt].
    destruct (fits lay (trailingHidden n h)) eqn:Hfit.
    + eexists h, _. split; [done |]. simpl.
      replace (n - h) with (S d) by lia.
      rewrite bool_decide_true by lia.
      split_and!; try done; try lia.
    + destruct (trailingHidden_step n h) as [Hlook Hins]; [lia |].
      replace (Z.to_nat (Z.of_nat (S d) - 1)) with (n - h - 1) by lia.
      rewrite Hlook. unfold setDisplay. rewrite Hins.
      replace (Z.of_nat (S d) - 1 - 1)%Z with (Z.of_nat d - 1)%Z by lia.
      replace (n - h - 1 :: seq (S d) h) with (seq d (S h))
        by (simpl; f_equal; lia).
      destruct (IH (S h) fuel (S e)) as (k & s & Hrun & Hk & Hels & Hhid & Hat & Hent & Hno & Hyes);
        [lia | lia |].
      exists k, s. split_and!; try done; try lia.
      intros j Hj. destruct (decide (j = h)) as [-> | Hne]; [done |].
      apply Hno. lia.
Qed.

Lemma overflowEffect_measured (container : list HTMLElement) spare :
  let n := length container in
  ∃ k run,
    overflowEffect lay (n + spare) (Some container) false = Returned run
    ∧ k ≤ n
    ∧ run_ref run = Some (trailingHidden n k)
    ∧ run_amount run = k
    ∧ run_hiddenAt run = seq (n - k) k
    ∧ run_entered run = k + (if bool_decide (k < n) then 1 else 0)
    ∧ (∀ j, j < k → fits lay (trailingHidden n j) = false)
    ∧ (k < n → fits lay (trailingHidden n k) = true).
Proof.
  intros n. unfold overflowEffect.
  rewrite length_fmap, setDisplay_all. fold n.
  destruct (scan_from n n 0 (n + spare) 0)
    as (k & s & Hrun & Hk & Hels & Hhid & Hat & Hent & Hno & Hyes); [lia | lia |].
  simpl in Hrun. rewrite Hrun.
  eexists k, _. split; [done |]. simpl.
  rewrite Hels, Hhid, Hat, Hent.
  split_and!; try done; try lia.
  intros j Hj. apply Hno. lia.
Qed.

Lemma overflowEffect_skipped fuel valueRef wrapping :
  valueRef = None ∨ wrapping = true →
  overflowEffect lay fuel valueRef wrapping =
    Returned {| run_ref := valueRef; run_amount := 0;
                run_entered := 0; run_hiddenAt := [] |}.
Proof.
  intros [-> | ->]; [done |]. by destruct valueRef.
Qed.

Lemma seq_backwards n k :
  k ≤ n → reverse (seq (n - k) k) = (λ j, n - 1 - j) <$> seq 0 k.
Proof.
  induction k as [|k IH]; intros Hk; [done |].
  change (seq (n - S k) (S k)) with ((n - S k) :: seq (S (n - S k)) k).
  rewrite reverse_cons. replace (S (n - S k)) with (n - k) by lia.
  rewrite IH by lia. rewrite (seq_S k 0), fmap_app. simpl.
  do 2 f_equal. lia.
Qed.

Lemma trailingHidden_count n k :
  length (filter (λ el, isHidden el = true) (trailingHidden n k)) = k.
Proof.
  unfold trailingHidden. rewrite filter_app, length_app.
  assert (Hshown : ∀ m, filter (λ el, isHidden el = true)
                          (replicate m {| style_display := "" |}) = []).
  { induction m as [|m IH]; [done |].
    rewrite replicate_S, filter_cons_False; done. }
  assert (Hnone : ∀ m, length (filter (λ el, isHidden el = true)
                          (replicate m {| style_display := "none" |})) = m).
  { induction m as [|m IH]; [done |].
    rewrite replicate_S, filter_cons_True by done. simpl. by rewrite IH. }
  by rewrite Hshown, Hnone.
Qed.

(** C2: the badges the effect hides are always the last [k] of the row,
    hidden one per round from the last one backwards ([k] is 0 when there
    is no row or wrapping is on).  When it measures, it measures the row
    with every badge shown first, and again after each badge it hides; it
    stops at the first count [k] at which the scroll width is at most the
    client width (or with all [n] hidden).  It leaves the last [k] badges
    hidden and the others with an empty [display], whatever their
    [display] was before. *)
Theorem overflow_scan_hides_trailing_suffix
    (valueRef : option (list HTMLElement)) wrapping spare :
  let n := from_option length 0 valueRef in
  ∃ k run,
    overflowEffect lay (n + spare) valueRef wrapping = Returned run
    ∧ k ≤ n
    ∧ reverse (run_hiddenAt run) = (λ j, n - 1 - j) <$> seq 0 k
    ∧ (∀ i, i ∈ run_hiddenAt run ↔ n - k ≤ i < n)
    ∧ (is_Some valueRef → wrapping = false →
         (∀ j, j < k → fits lay (trailingHidden n j) = false)
         ∧ (k < n → fits lay (trailingHidden n k) = true)
         ∧ ∃ els,
             run_ref run = Some els
             ∧ length els = n
             ∧ ∀ i el, els !! i = Some el →
                 (isHidden el = true ↔ n - k ≤ i)
                 ∧ (isHidden el = false → style_display el = "")).
Proof.
  intros n.
  assert (Hskip : valueRef = None ∨ wrapping = true →
    ∃ k run,
      overflowEffect lay (n + spare) valueRef wrapping = Returned run
      ∧ k ≤ n
      ∧ reverse (run_hiddenAt run) = (λ j, n - 1 - j) <$> seq 0 k
      ∧ (∀ i, i ∈ run_hiddenAt run ↔ n - k ≤ i < n)
      ∧ k = 0).
  { intros Hcase. rewrite overflowEffect_skipped by done.
    eexists 0, _. split; [done |]. simpl. split_and!; try done; try lia.
    all: intros i; split; [by intros ?%elem_of_nil | lia]. }
  destruct valueRef as [container |]; [destruct wrapping |].
  - destruct Hskip as (k & run & Hrun & Hk & Hat & Hin & _); [by right |].
    exists k, run. split_and!; try done.
  - destruct (overflowEffect_measured container spare)
      as (k & run & Hrun & Hk & Href & _ & Hat & _ & Hno & Hyes).
    simpl in n. fold n in Hrun, Href, Hat, Hno, Hyes, Hk.
    exists k, run. split_and!; try done.
    + rewrite Hat. by apply seq_backwards.
    + intros i. rewrite Hat, elem_of_seq. lia.
    + intros _ _. split_and!; try done.
      exists (trailingHidden n k). split_and!; [done | by apply trailingHidden_length |].
      intros i el Hi. split.
      * by apply (trailingHidden_lookup n k i el Hk Hi).
      * unfold trailingHidden in Hi.
        apply lookup_app_Some in Hi as [Hi | [_ Hi]];
          apply lookup_replicate in Hi as [-> _]; done.
  - destruct Hskip as (k & run & Hrun & Hk & Hat & Hin & _); [by left |].
    exists k, run. split_and!; try done.
Qed.

(** C3: the scan enters its body at most [n] times, no badge is hidden
    twice, and the effect returns for every layout; when nothing ever fits
    it returns after [n] rounds with all [n] badges hidden. *)
Theorem overflow_scan_is_linear (valueRef : option (list HTMLElement)) wrapping spare :
  let n := from_option length 0 valueRef in
  ∃ run,
    overflowEffect lay (n + spare) valueRef wrapping = Returned run
    ∧ run_entered run ≤ n
    ∧ NoDup (run_hiddenAt run)
    ∧ length (run_hiddenAt run) = run_amount run
    ∧ run_amount run ≤ n
    ∧ (∀ i, i ∈ run_hiddenAt run → i < n)
    ∧ (wrapping = false → (∀ els, fits lay els = false) →
         run_entered run = n ∧ run_amount run = n).
Proof.
  intros n. destruct valueRef as [container |]; [destruct wrapping |].
  - rewrite overflowEffect_skipped by by right.
    eexists. split; [done |]. simpl.
    split_and!; try done; try lia; [apply NoDup_nil_2 | by intros i ?%elem_of_nil].
  - destruct (overflowEffect_measured container spare)
      as (k & run & Hrun & Hk & _ & Hamt & Hat & Hent & Hno & Hyes).
    simpl in n. fold n in Hrun, Hk, Hat, Hent, Hno, Hyes.
    exists run. split; [done |]. rewrite Hat, Hamt, Hent.
    split_and!.
    + case_bool_decide; lia.
    + apply NoDup_seq.
    + apply length_seq.
    + done.
    + intros i Hi%elem_of_seq. lia.
    + intros _ Hnever. destruct (decide (k < n)) as [Hlt | Hge].
      * specialize (Hyes Hlt). by rewrite Hnever in Hyes.
      * rewrite bool_decide_false by done. lia.
  - rewrite overflowEffect_skipped by by left.
    eexists. split; [done |]. simpl.
    split_and!; try done; try lia; [apply NoDup_nil_2 | by intros i ?%elem_of_nil].
Qed.

End Overflow.

(* ===================================================================== *)
(** ** The overflow badge *)
(* ===================================================================== *)

Section OverflowBadge.
Context {T H R : Type}.
Variable lay : Layout.
Implicit Types (p : MultiSelectProps T H R) (vp : MultiSelectValueProps).
Implicit Types (w : World H).

Lemma shouldWrap_spec vp p w :
  shouldWrap vp (MultiSelect p w) = true ↔
    default wrap_when_open (overflowBehavior vp) = wrap
    ∨ (default wrap_when_open (overflowBehavior vp) = wrap_when_open
       ∧ st_open w = true).
Proof.
  unfold shouldWrap. simpl.
  destruct (default wrap_when_open (overflowBehavior vp)), (st_open w);
    simpl; split; try done; try (intros [? | [? ?]]; done); auto.
Qed.

(** C4: one round of render, commit and effect, and the renders that
    follow it.  The row is committed, and measured, exactly when the
    selection is not empty.  The amount the effect stores is the number of
    badges its scan hid (and, after a scan, the number of badges left with
    [display: none]).  In every later render of the same selection that
    still has this amount stored, whatever the popover's open state has
    become, the [+N] badge is there exactly when the amount is positive and
    wrapping is off, and [N] is that amount; for a selection that is not
    empty this holds of every stored amount.  When wrapping is on
    (["wrap"], or ["wrap-when-open"] with the popover open) the effect
    stores 0, hides nothing and leaves every badge as it was. *)
Theorem overflow_amount_and_badge p vp w (els : list HTMLElement) spare :
  let wrapping := shouldWrap vp (MultiSelect p w) in
  let valueRef := committedRef (MultiSelectValue vp (MultiSelect p w) w) els in
  (valueRef = Some els ↔ values p ≠ [])
  ∧ (∃ run,
    overflowEffect lay (length els + spare) valueRef wrapping = Returned run
    ∧ run_amount run = length (run_hiddenAt run)
    ∧ (wrapping = false → ∀ els', run_ref run = Some els' →
         length (filter (λ el, isHidden el = true) els') = run_amount run)
    ∧ (let w' := setOverflowAmount (run_amount run) w in
       st_overflowAmount w' = run_amount run
       ∧ ∀ N,
           overflowBadgeOf (MultiSelectValue vp (MultiSelect p w') w') = Some N
           ↔ N = st_overflowAmount w' ∧ 0 < st_overflowAmount w' ∧ wrapping = false)
    ∧ (∀ w', st_overflowAmount w' = run_amount run → ∀ N,
         overflowBadgeOf (MultiSelectValue vp (MultiSelect p w') w') = Some N
         ↔ N = run_amount run ∧ 0 < run_amount run
           ∧ shouldWrap vp (MultiSelect p w') = false)
    ∧ (wrapping = true ↔
         default wrap_when_open (overflowBehavior vp) = wrap
         ∨ (default wrap_when_open (overflowBehavior vp) = wrap_when_open
            ∧ st_open w = true))
    ∧ (wrapping = true →
         run_amount run = 0 ∧ run_hiddenAt run = [] ∧ run_ref run = valueRef))
  ∧ (values p ≠ [] → ∀ w' N,
       overflowBadgeOf (MultiSelectValue vp (MultiSelect p w') w') = Some N
       ↔ N = st_overflowAmount w' ∧ 0 < st_overflowAmount w'
         ∧ shouldWrap vp (MultiSelect p w') = false).
Proof.
  intros wrapping valueRef.
  assert (Hsz : Nat.eqb (JsMap.size (selectedMap p)) 0 = bool_decide (values p = [])).
  { destruct (Nat.eqb_spec (JsMap.size (selectedMap p)) 0) as [Hz | Hnz].
    - apply selectedMap_empty in Hz. by rewrite bool_decide_true.
    - rewrite bool_decide_false; [done |]. intros Hnil. by apply selectedMap_empty in Hnil. }
  assert (Hview : ∀ w',
    overflowBadgeOf (MultiSelectValue vp (MultiSelect p w') w') =
      if bool_decide (values p = []) then None
      else if Nat.ltb 0 (st_overflowAmount w') && negb (shouldWrap vp (MultiSelect p w'))
           then Some (st_overflowAmount w') else None).
  { intros w'. unfold MultiSelectValue. simpl. rewrite Hsz.
    by destruct (bool_decide (values p = [])). }
  assert (Hbadge : ∀ (n : nat) (wrap : bool) N,
    (if Nat.ltb 0 n && negb wrap then Some n else None) = Some N
    ↔ N = n ∧ 0 < n ∧ wrap = false).
  { intros n wrap N. destruct n as [|n], wrap; simpl; split;
      try done; try lia; try (intros (? & ? & ?); (done || lia)).
    - intros [= <-]. split_and!; [done | lia | done].
    - by intros (-> & _ & _). }
  assert (Href : valueRef = Some els ↔ values p ≠ []).
  { subst valueRef. unfold MultiSelectValue. simpl. rewrite Hsz.
    case_bool_decide as Hnil; simpl; split; done. }
  assert (Hany : values p ≠ [] → ∀ w' N,
       overflowBadgeOf (MultiSelectValue vp (MultiSelect p w') w') = Some N
       ↔ N = st_overflowAmount w' ∧ 0 < st_overflowAmount w'
         ∧ shouldWrap vp (MultiSelect p w') = false).
  { intros Hne w' N. rewrite Hview, bool_decide_false by done. apply Hbadge. }
  assert (Hzero : ∀ w' N, st_overflowAmount w' = 0 →
       overflowBadgeOf (MultiSelectValue vp (MultiSelect p w') w') = Some N
       ↔ N = 0 ∧ 0 < 0 ∧ shouldWrap vp (MultiSelect p w') = false).
  { intros w' N Hz. rewrite Hview, Hz.
    case_bool_decide; simpl; split; try done; lia. }
  assert (Hskip : valueRef = None ∨ wrapping = true →
    ∃ run,
      overflowEffect lay (length els + spare) valueRef wrapping = Returned run
      ∧ run_amount run = 0 ∧ run_hiddenAt run = [] ∧ run_ref run = valueRef).
  { intros Hcase. rewrite overflowEffect_skipped by done. eexists. by split. }
  split; [exact Href |]. split; [| exact Hany].
  destruct (decide (valueRef = None ∨ wrapping = true)) as [Hcase | Hmeasure].
  - destruct (Hskip Hcase) as (run & Hrun & Hamt & Hat & Hrow).
    exists run. rewrite Hamt, Hat. split_and!; try done.
    + intros Hw els' Hels'. destruct Hcase as [Hn | Hw']; [| congruence].
      rewrite Hrow, Hn in Hels'. done.
    + simpl. split; [done |]. intros N.
      rewrite (Hzero (setOverflowAmount 0 w) N eq_refl). done.
    + intros w' Hw' N. by apply Hzero.
    + apply shouldWrap_spec.
  - assert (Hw : wrapping = false).
    { destruct wrapping; [destruct Hmeasure; by right | done]. }
    assert (Hne : values p ≠ []).
    { intros Hnil. destruct Hmeasure. left.
      subst valueRef. unfold MultiSelectValue. simpl.
      by rewrite Hsz, bool_decide_true. }
    assert (Hsome : valueRef = Some els) by by apply Href.
    rewrite Hsome, Hw.
    destruct (overflowEffect_measured lay els spare)
      as (k & run & Hrun & Hk & Hdom & Hamt & Hat & _).
    exists run. rewrite Hamt, Hat, Hdom. split_and!; try done.
    + by rewrite length_seq.
    + intros _ els' [= <-]. apply trailingHidden_count.
    + simpl. split; [done |]. intros N.
      rewrite (Hany Hne (setOverflowAmount k w) N). simpl.
      change (shouldWrap vp (MultiSelect p (setOverflowAmount k w))) with wrapping.
      by rewrite Hw.
    + intros w' Hw' N. rewrite (Hany Hne w' N). by rewrite Hw'.
    + split; [done |].
      intros Hor. apply (shouldWrap_spec vp p w) in Hor. fold wrapping in Hor. congruence.
Qed.

End OverflowBadge.

(* ===================================================================== *)
(** ** The search input *)
(* ===================================================================== *)

Section Search.
Context {T H R : Type}.
Implicit Types (p : MultiSelectProps T H R) (w : World H).

(** C6: the search value is [inputValue] when the host passes one and the
    internal search state otherwise; an edit goes to [onInputChange] when
    the host passes one (the internal state stays as it is) and to the
    internal state otherwise (the host state stays as it is);
    [MultiSelectContent] renders the search input, wired to that value and
    that setter, unless its [search] prop is [false]: for [true], for an
    options object and when the prop is left out. *)
Theorem search_is_delegated p w (search : option SearchProp) :
  let ctx := MultiSelect p w in
  (∀ s, inputValue p = Some s → ctx_searchValue ctx = s)
  ∧ (inputValue p = None → ctx_searchValue ctx = st_internalSearch w)
  ∧ (∀ f, onInputChange p = Some f → ∀ s w0,
       ctx_setSearchValue ctx s w0 = callHost (f s) w0
       ∧ host (ctx_setSearchValue ctx s w0) = f s (host w0)
       ∧ st_internalSearch (ctx_setSearchValue ctx s w0) = st_internalSearch w0)
  ∧ (onInputChange p = None → ∀ s w0,
       ctx_setSearchValue ctx s w0 = setInternalSearch s w0
       ∧ st_internalSearch (ctx_setSearchValue ctx s w0) = s
       ∧ host (ctx_setSearchValue ctx s w0) = host w0)
  ∧ (is_Some (commandInput (MultiSelectContent search ctx))
     ↔ truthy (default (SearchBool true) search) = true
       ∨ isObject (default (SearchBool true) search) = true)
  ∧ (is_Some (commandInput (MultiSelectContent search ctx))
     ↔ search ≠ Some (SearchBool false))
  ∧ (∀ input, commandInput (MultiSelectContent search ctx) = Some input →
       input_value input = ctx_searchValue ctx
       ∧ input_onValueChange input = ctx_setSearchValue ctx).
Proof.
  intros ctx. subst ctx. simpl. unfold searchValue, setSearchValue.
  split_and!.
  - by intros s ->.
  - by intros ->.
  - by intros f -> s w0.
  - by intros -> s w0.
  - destruct search as [[[|]|ph em]|]; simpl;
      (split; [intros [x Hx]; (done || auto) | intros [? | ?]; (done || eauto)]).
  - destruct search as [[[|]|ph em]|]; simpl;
      (split; [intros [x Hx]; done | intros Hne; (by destruct Hne) || eauto]).
  - intros input. unfold MultiSelectContent. simpl.
    destruct (isObject _ || truthy _); [| done].
    by intros [= <-].
Qed.

End Search.

(* ===================================================================== *)
(** ** [toggleValue] and the objects it is given *)
(* ===================================================================== *)

Section StoreFacts.
Context {T H R : Type}.
Implicit Types (p : MultiSelectProps T H R) (h : gmap Store.loc (Store.obj T)).

Lemma alloc_fresh (o : Store.obj T) h :
((Store.alloc o h).1 ∉ dom h)
  ∧ (Store.alloc o h).2 !! (Store.alloc o h).1 = Some o
  ∧ ∀ l, l ∈ dom h → (Store.alloc o h).2 !! l = h !! l.
Proof.
  unfold Store.alloc. cbn [fst snd]. split_and!.
  - apply is_fresh.
  - apply lookup_insert_eq.
  - intros l Hl. apply lookup_insert_ne. intros <-. by apply is_fresh in Hl.
Qed.

Lemma alloc_dom (o : Store.obj T) h l :
  l ∈ dom h → l ∈ dom (Store.alloc o h).2.
Proof. unfold Store.alloc. cbn [snd]. rewrite dom_insert. set_solver. Qed.

Lemma render_allocates p valuesRef h :
  Store.readArray valuesRef h = Some (values p) →
  ∃ selectedMapRef h1,
    Store.render p valuesRef h = Some (selectedMapRef, h1)
    ∧ (selectedMapRef ∉ dom h)
    ∧ selectedMapRef ∈ dom h1
    ∧ Store.readMap selectedMapRef h1 = Some (selectedMap p)
    ∧ ∀ l, l ∈ dom h → l ∈ dom h1 ∧ h1 !! l = h !! l.
Proof.
  intros Hvalues. unfold Store.render, Store.newMapOfValues.
  rewrite Hvalues. simpl.
  set (o := Store.MapObj (JsMap.of_entries ((λ v, (getId p v, v)) <$> values p))).
  destruct (alloc_fresh o h) as (Hfresh & Hat & Hframe).
  destruct (Store.alloc o h) as [l h1] eqn:E. simpl in *.
  exists l, h1. split_and!; try done.
  - apply elem_of_dom. by rewrite Hat.
  - unfold Store.readMap. by rewrite Hat.
  - intros l' Hl'. split; [| by apply Hframe].
    pose proof (alloc_dom o h l' Hl') as Hd. by rewrite E in Hd.
Qed.

(** The store after a toggle, in closed form: one new map, and one new
    array when the callback is there. *)
Lemma toggleValue_run p selectedMapRef val h e :
  Store.readMap selectedMapRef h = Some e →
  let next := fresh (dom h) in
  let copy := JsMap.of_entries (JsMap.entries e) in
  let m := if JsMap.has (getId p val) copy
           then JsMap.delete (getId p val) copy
           else JsMap.set (getId p val) val copy in
  let hb := <[next := Store.MapObj m]> h in
  Store.toggleValue p selectedMapRef val h =
    match onValuesChange p with
    | Some _ =>
        Some (Some (fresh (dom hb)),
              <[fresh (dom hb) := Store.ArrayObj (JsMap.values m)]> hb)
    | None => Some (None, hb)
    end.
Proof.
  intros Hread next copy m hb.
  unfold Store.toggleValue, Store.newMapOfMap, Store.alloc. rewrite Hread.
  cbn [mbind option_bind]. fold copy next.
  unfold Store.mapHas, Store.mapDelete, Store.mapSet, Store.spreadValues,
    Store.readMap, Store.alloc.
  rewrite lookup_insert_eq. cbn [mbind option_bind].
  assert (Hhb : ∀ m', <[next := Store.MapObj m']> (<[next := Store.MapObj copy]> h)
                      = <[next := Store.MapObj m']> h)
    by (intros m'; apply insert_insert_eq).
  subst hb m. destruct (JsMap.has (getId p val) copy);
    rewrite Hhb; cbn [mbind option_bind];
    (destruct (onValuesChange p); [| done]);
    rewrite lookup_insert_eq; done.
Qed.

(** C9: a render followed by [toggleValue].  No object that existed
    before the call is written to: the [values] array and the selected map
    read as before.  The toggle works on a map of its own, and the array
    [onValuesChange] is called with is a new object holding the values of
    that map. *)
Theorem toggleValue_leaves_inputs_untouched p valuesRef h val :
  Store.readArray valuesRef h = Some (values p) →
  ∃ selectedMapRef h1,
    Store.render p valuesRef h = Some (selectedMapRef, h1)
    ∧ Store.readMap selectedMapRef h1 = Some (selectedMap p)
    ∧ ∃ called h2,
        Store.toggleValue p selectedMapRef val h1 = Some (called, h2)
        ∧ (∀ l, l ∈ dom h1 → h2 !! l = h1 !! l)
        ∧ Store.readArray valuesRef h2 = Some (values p)
        ∧ Store.readMap selectedMapRef h2 = Some (selectedMap p)
        ∧ (∃ next m,
             (next ∉ dom h1)
             ∧ Store.readMap next h2 = Some m
             ∧ JsMap.values m = nextValues p val
             ∧ match called with
               | Some arr =>
                   (arr ∉ dom h1) ∧ arr ≠ next
                   ∧ Store.readArray arr h2 = Some (nextValues p val)
               | None => True
               end)
        ∧ (is_Some called ↔ is_Some (onValuesChange p)).
Proof.
  intros Hvalues.
  destruct (render_allocates p valuesRef h Hvalues)
    as (sm & h1 & Hrender & Hsm_fresh & Hsm_dom & Hsm & Hframe1).
  exists sm, h1. split_and!; [done | done |].
  assert (Hvalues_dom : valuesRef ∈ dom h).
  { apply elem_of_dom. unfold Store.readArray in Hvalues.
    destruct (h !! valuesRef); [eauto | done]. }
  pose proof (Hframe1 valuesRef Hvalues_dom) as [Hvalues_dom1 Hvalues1].
  rewrite (toggleValue_run p sm val h1 (selectedMap p) Hsm).
  set (next := fresh (dom h1)).
  set (m := if JsMap.has (getId p val) (JsMap.of_entries (JsMap.entries (selectedMap p)))
            then JsMap.delete (getId p val) (JsMap.of_entries (JsMap.entries (selectedMap p)))
            else JsMap.set (getId p val) val (JsMap.of_entries (JsMap.entries (selectedMap p)))).
  set (hb := <[next := Store.MapObj m]> h1).
  assert (Hm : JsMap.values m = nextValues p val) by done.
  assert (Hnext_fresh : next ∉ dom h1) by apply is_fresh.
  assert (Hb_next : hb !! next = Some (Store.MapObj m)) by apply lookup_insert_eq.
  assert (Hb_frame : ∀ l, l ∈ dom h1 → hb !! l = h1 !! l).
  { intros l Hl. subst hb. apply lookup_insert_ne. by intros <-. }
  assert (Hb_dom : ∀ l, l ∈ dom h1 → l ∈ dom hb).
  { intros l Hl. subst hb. rewrite dom_insert. apply elem_of_union. by right. }
  assert (Hb_next_dom : next ∈ dom hb).
  { apply elem_of_dom. by rewrite Hb_next. }
  assert (Hread : ∀ h2, (∀ l, l ∈ dom h1 → h2 !! l = h1 !! l) →
            Store.readArray valuesRef h2 = Some (values p)
            ∧ Store.readMap sm h2 = Some (selectedMap p)).
  { intros h2 Hfr. split.
    - unfold Store.readArray. rewrite (Hfr _ Hvalues_dom1), Hvalues1. apply Hvalues.
    - unfold Store.readMap. rewrite (Hfr _ Hsm_dom). apply Hsm. }
  destruct (onValuesChange p) as [f |].
  - set (arr := fresh (dom hb)).
    set (hc := <[arr := Store.ArrayObj (JsMap.values m)]> hb).
    assert (Harr_fresh : arr ∉ dom hb) by apply is_fresh.
    assert (Hc_frame : ∀ l, l ∈ dom h1 → hc !! l = h1 !! l).
    { intros l Hl. subst hc. rewrite lookup_insert_ne; [auto |].
      intros <-. apply Harr_fresh. auto. }
    exists (Some arr), hc.
    split_and!; [done | done | by apply Hread | by apply Hread | | split; eauto].
    exists next, m. split_and!; try done.
    + unfold Store.readMap. subst hc.
      rewrite lookup_insert_ne by (by intros ->). by rewrite Hb_next.
    + intros Harr. apply Harr_fresh. auto.
    + by intros ->.
    + unfold Store.readArray. subst hc. by rewrite lookup_insert_eq, Hm.
  - exists None, hb.
    split_and!; [done | done | by apply Hread | by apply Hread | | split; by intros [? ?]].
    exists next, m. split_and!; try done. unfold Store.readMap. by rewrite Hb_next.
Qed.

End StoreFacts.

(* ===================================================================== *)
(** ** The README's frameworks *)
(* ===================================================================== *)

(** C5, with React and Vue selected: two badges, keyed ["1"] and ["2"]. *)
Lemma badges_follow_selected_map_witness :
  values (demoProps [react; vue]) ≠ []
  ∧ ∃ flexWrap badges overflowBadge,
      MultiSelectValue demoValueProps (MultiSelect (demoProps [react; vue]) demoWorld)
        demoWorld = BadgeRow flexWrap badges overflowBadge
      ∧ length badges = 2
      ∧ badge_key <$> badges = ["1"; "2"].
Proof.
  assert (Hne : values (demoProps [react; vue]) ≠ []) by discriminate.
  split; [exact Hne |].
  destruct (badges_follow_selected_map (demoProps [react; vue]) demoValueProps
              demoWorld demoWorld Hne)
    as (flexWrap & badges & overflowBadge & Hview & Hlen & Hkeys & _).
  exists flexWrap, badges, overflowBadge. split; [exact Hview |].
  split; [exact Hlen | exact Hkeys].
Defined.

(** C8, with nothing selected. *)
Lemma empty_selection_renders_placeholder_witness :
  values (demoProps []) = []
  ∧ MultiSelectValue demoValueProps (MultiSelect (demoProps []) demoWorld) demoWorld
      = PlaceholderSpan (Some "Select frameworks...").
Proof.
  split; [reflexivity |].
  apply (empty_selection_renders_placeholder (demoProps []) eq_refl).
Defined.

(** C9, on a store that holds [[react; vue]]: toggling Vue leaves the array
    as it is and calls back. *)
Lemma toggleValue_leaves_inputs_untouched_witness :
  Store.readArray 1%positive demoStore = Some (values (demoProps [react; vue]))
  ∧ ∃ selectedMapRef h1 called h2,
      Store.render (demoProps [react; vue]) 1%positive demoStore
        = Some (selectedMapRef, h1)
      ∧ Store.toggleValue (demoProps [react; vue]) selectedMapRef vue h1
        = Some (called, h2)
      ∧ Store.readArray 1%positive h2 = Some [react; vue]
      ∧ Store.readMap selectedMapRef h2 = Some [("1", react); ("2", vue)]
      ∧ is_Some called.
Proof.
  assert (Hread : Store.readArray 1%positive demoStore
                  = Some (values (demoProps [react; vue]))) by reflexivity.
  split; [exact Hread |].
  destruct (toggleValue_leaves_inputs_untouched (demoProps [react; vue])
              1%positive demoStore vue Hread)
    as (sm & h1 & Hrender & _ & called & h2 & Htoggle & _ & Harr & Hmap & _ & Hcalled).
  exists sm, h1, called, h2.
  split; [exact Hrender |]. split; [exact Htoggle |].
  split; [exact Harr |]. split; [exact Hmap |].
  apply Hcalled. exists (λ vs _, vs). reflexivity.
Defined.

(** A repeated id keeps its first position and its last value. *)
Example selectedMap_repeated_id :
  selectedMap (demoProps [react; vue; reactRenamed])
    = [("1", reactRenamed); ("2", vue)].
Proof. reflexivity. Qed.

Example toggle_removes_repeated_id :
  nextValues (demoProps [react; vue; reactRenamed]) react = [vue].
Proof. reflexivity. Qed.

Example toggle_appends :
  nextValues (demoProps [react; vue]) svelte = [react; vue; svelte].
Proof. reflexivity. Qed.

(** Five badges of 40 pixels in 100 pixels: the last three are hidden, in
    four rounds, whatever was hidden before. *)
Example overflow_hides_three_of_five :
  overflowEffect demoLayout 5 (Some fiveBadges) false =
    Returned {| run_ref := Some (trailingHidden 5 3); run_amount := 3;
                run_entered := 4; run_hiddenAt := [2; 3; 4] |}.
Proof. vm_compute. reflexivity. Qed.

Example overflow_never_fits :
  overflowEffect tightLayout 5 (Some fiveBadges) false =
    Returned {| run_ref := Some (trailingHidden 5 5); run_amount := 5;
                run_entered := 5; run_hiddenAt := [0; 1; 2; 3; 4] |}.
Proof. vm_compute. reflexivity. Qed.

(** With wrapping on, what an earlier run hid stays hidden. *)
Example overflow_wrapping_keeps_row :
  overflowEffect demoLayout 5 (Some fiveBadges) true =
    Returned {| run_ref := Some fiveBadges; run_amount := 0;
                run_entered := 0; run_hiddenAt := [] |}.
Proof. reflexivity. Qed.

(** The render between a change of [values] to the empty list and the
    effect that follows it: the stored amount is still positive, and the
    placeholder is all there is. *)
Example stale_amount_renders_placeholder :
  overflowBadgeOf
    (MultiSelectValue demoValueProps (MultiSelect (demoProps []) demoWorld)
       (setOverflowAmount 3 demoWorld)) = None.
Proof. reflexivity. Qed.

(* ===================================================================== *)
(** * The rest of the component *)
(* ===================================================================== *)

(** ** More on the [Map] operations *)

Section JsMapMore.
Context {V : Type}.
Implicit Types (m : JsMap.t V) (k : string) (v : V).

Lemma set_same k v m : JsMap.get k m = Some v → JsMap.set k v m = m.
Proof.
  induction m as [|[k0 v0] m IH]; simpl; [done |].
  case_decide; [by intros [= ->]; subst | intros Hg; by rewrite IH].
Qed.

Lemma has_set k v k' m :
  JsMap.has k' (JsMap.set k v m) = if decide (k' = k) then true else JsMap.has k' m.
Proof.
  induction m as [|[k0 v0] m IH]; simpl.
  - by case_decide.
  - destruct (decide (k = k0)) as [-> | Hne]; simpl.
    + by destruct (decide (k' = k0)).
    + rewrite IH. destruct (decide (k' = k0)) as [-> | ?]; [| done].
      by case_decide.
Qed.

Lemma has_delete k k' m :
  JsMap.wf m →
  JsMap.has k' (JsMap.delete k m) = if decide (k' = k) then false else JsMap.has k' m.
Proof.
  intros Hwf. destruct (decide (k' = k)) as [-> | Hne].
  - apply JsMapFacts.has_false. by apply JsMapFacts.delete_not_in.
  - pose proof (JsMapFacts.get_delete k k' m Hwf) as Hget.
    rewrite decide_False in Hget by done.
    pose proof (JsMapFacts.has_get k' (JsMap.delete k m)) as H1.
    pose proof (JsMapFacts.has_get k' m) as H2.
    rewrite Hget in H1.
    destruct (JsMap.has k' (JsMap.delete k m)), (JsMap.has k' m); try done.
    + symmetry. apply H2, H1. done.
    + apply H1, H2. done.
Qed.

Lemma size_delete k m :
  JsMap.has k m = true → S (JsMap.size (JsMap.delete k m)) = JsMap.size m.
Proof.
  unfold JsMap.size. induction m as [|[k0 v0] m IH]; simpl; [done |].
  case_decide; [done |]. intros Hhas. f_equal. by apply IH.
Qed.

End JsMapMore.

(* ===================================================================== *)
(** ** The registry of mounted items *)
(* ===================================================================== *)

Section RegistryFacts.
Context {T : Type} `{EqDecision T}.
Implicit Types (nan : T → bool) (undef : option T) (items : JsMap.t T) (value : T).

Lemma strictEq_true nan (x y : T) :
  strictEq nan x y = true ↔ x = y ∧ nan y = false.
Proof.
  unfold strictEq. rewrite andb_true_iff, bool_decide_eq_true, negb_true_iff. done.
Qed.

(** On a registry, [onItemAdded] is [set], short of returning the state
    itself when there is nothing to change. *)
Lemma onItemAdded_as_set nan undef id value items :
  JsMap.wf items → undef ≠ Some value →
  onItemAdded nan undef id value items = JsMap.set id value items.
Proof.
  intros Hwf Hdef. unfold onItemAdded, getIsValue.
  destruct (JsMap.get id items) as [x |] eqn:Hget.
  - destruct (strictEq nan x value) eqn:Hx.
    + apply strictEq_true in Hx as [-> _]. symmetry. by apply set_same.
    + by rewrite JsMapFacts.of_entries_copy.
  - rewrite bool_decide_false by done. by rewrite JsMapFacts.of_entries_copy.
Qed.

(** X1: registering a value that is not [undefined] makes the registry
    map the id to it; the other ids keep their values, an id that is new
    goes to the end, and the registry still has one entry per id. *)
Theorem onItemAdded_registers nan undef id value items :
  JsMap.wf items → undef ≠ Some value →
  JsMap.get id (onItemAdded nan undef id value items) = Some value
  ∧ (∀ k, k ≠ id →
       JsMap.get k (onItemAdded nan undef id value items) = JsMap.get k items)
  ∧ JsMap.keys (onItemAdded nan undef id value items)
      = (if JsMap.has id items then JsMap.keys items else JsMap.keys items ++ [id])
  ∧ JsMap.wf (onItemAdded nan undef id value items).
Proof.
  intros Hwf Hdef. rewrite onItemAdded_as_set by done. split_and!.
  - rewrite JsMapFacts.get_set. by rewrite decide_True.
  - intros k Hk. rewrite JsMapFacts.get_set. by rewrite decide_False.
  - apply JsMapFacts.keys_set.
  - by apply JsMapFacts.set_wf.
Qed.

(** X2: registering is idempotent on what the registry holds: a second
    registration of the same id and value gives the entries the first one
    gave, for NaN too; and a registry with one entry per id that already
    maps the id to the value keeps exactly its entries.  (Whether the state
    is then the same object or an equal copy is a matter of [===]; see the
    store.) *)
Theorem onItemAdded_idempotent nan undef id value items :
  onItemAdded nan undef id value (onItemAdded nan undef id value items)
    = onItemAdded nan undef id value items
  ∧ (JsMap.wf items → JsMap.get id items = Some value →
       onItemAdded nan undef id value items = items).
Proof.
  assert (Hkeep : ∀ m : JsMap.t T, JsMap.wf m → JsMap.get id m = Some value →
            onItemAdded nan undef id value m = m).
  { intros m Hwf Hget. unfold onItemAdded.
    destruct (getIsValue nan undef m id value); [done |].
    rewrite JsMapFacts.of_entries_copy by done. by apply set_same. }
  split; [| exact (Hkeep items)].
  unfold onItemAdded at 2 3.
  destruct (getIsValue nan undef items id value) eqn:E.
  - unfold onItemAdded. by rewrite E.
  - apply Hkeep.
    + apply JsMapFacts.set_wf, JsMapFacts.of_entries_wf.
    + rewrite JsMapFacts.get_set. by rewrite decide_True.
Qed.

(** X3: an [undefined] value under an id the registry does not have is
    not registered: [prev.get(id)] is [undefined] too, and the state comes
    back as it is. *)
Theorem onItemAdded_undefined nan undef id value items :
  undef = Some value → JsMap.has id items = false →
  onItemAdded nan undef id value items = items
  ∧ JsMap.has id (onItemAdded nan undef id value items) = false.
Proof.
  intros Hdef Habsent.
  assert (Hsame : onItemAdded nan undef id value items = items).
  { unfold onItemAdded, getIsValue.
    apply JsMapFacts.has_false, JsMapFacts.get_None in Habsent.
    rewrite Habsent. by rewrite bool_decide_true. }
  by rewrite Hsame.
Qed.

End RegistryFacts.

(** X1, registering Vue next to React. *)
Lemma onItemAdded_registers_witness :
  JsMap.wf [("1", react)] ∧ (None : option Framework) ≠ Some vue
  ∧ JsMap.get "2" (onItemAdded noNaN None "2" vue [("1", react)]) = Some vue.
Proof.
  assert (Hwf : JsMap.wf [("1", react)]) by (apply NoDup_singleton).
  assert (Hdef : (None : option Framework) ≠ Some vue) by discriminate.
  split; [exact Hwf |]. split; [exact Hdef |].
  exact (proj1 (onItemAdded_registers noNaN None "2" vue [("1", react)] Hwf Hdef)).
Defined.

(** X3, for values of type [string | undefined]. *)
Lemma onItemAdded_undefined_witness :
  demoUndefined = Some None
  ∧ JsMap.has "a" ([("b", Some "x")] : JsMap.t (option string)) = false
  ∧ onItemAdded (λ _, false) demoUndefined "a" None [("b", Some "x")]
    = [("b", Some "x")].
Proof.
  split; [reflexivity |]. split; [reflexivity |].
  exact (proj1 (onItemAdded_undefined (λ _, false) demoUndefined "a" None
                  [("b", Some "x")] eq_refl eq_refl)).
Defined.

Section MountedItems.
Context {T H R : Type} `{EqDecision T}.
Implicit Types (p : MultiSelectProps T H R) (w : World H).
Implicit Types (nan : T → bool) (undef : option T).

Lemma mountItems_from nan undef p w vs : ∀ acc : JsMap.t T,
  JsMap.wf acc → Forall (λ v, undef ≠ Some v) vs →
  foldl (λ items v, MultiSelectItem_effect nan undef (MultiSelect p w) v items) acc vs
    = foldl JsMap.step acc ((λ v, (getId p v, v)) <$> vs).
Proof.
  induction vs as [|v vs IH]; intros acc Hwf Hdef; [done |].
  apply Forall_cons in Hdef as [Hv Hdef]. rewrite fmap_cons. simpl.
  unfold MultiSelectItem_effect at 2. simpl.
  rewrite onItemAdded_as_set by done.
  apply IH; [by apply JsMapFacts.set_wf | done].
Qed.

(** X4: once the items for [vs] have mounted (none of them [undefined]),
    the registry is the map [new Map(vs.map((v) => [getId(v), v]))], the one
    [MultiSelect] would select for [values = vs]: one entry per id, keyed
    by the value's id, holding every mounted id. *)
Theorem mountItems_is_map nan undef p w vs :
  Forall (λ v, undef ≠ Some v) vs →
  mountItems nan undef (MultiSelect p w) vs = selectedMap (withValues p vs)
  ∧ keyed p (mountItems nan undef (MultiSelect p w) vs)
  ∧ ∀ v, v ∈ vs →
      JsMap.has (getId p v) (mountItems nan undef (MultiSelect p w) vs) = true.
Proof.
  intros Hdef.
  assert (Heq : mountItems nan undef (MultiSelect p w) vs
                = selectedMap (withValues p vs)).
  { unfold mountItems. rewrite mountItems_from; [done | apply NoDup_nil_2 | done]. }
  rewrite Heq. split_and!; [done | |].
  - apply (selectedMap_keyed (withValues p vs)).
  - intros v Hv. apply (selectedMap_has (withValues p vs)). simpl.
    by apply list_elem_of_fmap_2.
Qed.

End MountedItems.

(** X4, mounting React, Vue and React again. *)
Lemma mountItems_is_map_witness :
  Forall (λ v, (None : option Framework) ≠ Some v) [react; vue; react]
  ∧ mountItems noNaN None (MultiSelect (demoProps []) demoWorld) [react; vue; react]
      = [("1", react); ("2", vue)].
Proof.
  assert (Hdef : Forall (λ v, (None : option Framework) ≠ Some v) [react; vue; react]).
  { repeat constructor; discriminate. }
  split; [exact Hdef |].
  exact (proj1 (mountItems_is_map noNaN None (demoProps []) demoWorld
                  [react; vue; react] Hdef)).
Defined.

Section RegistryStore.
Context {T : Type} `{EqDecision T}.
Implicit Types (nan : T → bool) (undef : option T).
Implicit Types (h : gmap Store.loc (Store.obj T)).

(** X5: on the store, the updater never writes to the map it is given.
    When [prev.get(id) === value] it returns that very reference and the
    store as it is; otherwise it returns a map allocated for the purpose.
    A NaN value is never [===] to what the registry holds, so it gets a new
    map even when the registry maps the id to NaN already.  Either way the
    map returned holds what [onItemAdded] computes. *)
Theorem onItemAddedRef_keeps_prev nan undef id value prev h e :
  Store.readMap prev h = Some e →
  ∃ r h',
    onItemAddedRef nan undef id value prev h = Some (r, h')
    ∧ (∀ l, l ∈ dom h → h' !! l = h !! l)
    ∧ Store.readMap prev h' = Some e
    ∧ Store.readMap r h' = Some (onItemAdded nan undef id value e)
    ∧ (getIsValue nan undef e id value = true → r = prev ∧ h' = h)
    ∧ (getIsValue nan undef e id value = false → (r ∉ dom h) ∧ r ≠ prev)
    ∧ (getIsValue nan undef e id value = true ↔
         (∃ x, JsMap.get id e = Some x ∧ x = value ∧ nan value = false)
         ∨ (JsMap.get id e = None ∧ undef = Some value))
    ∧ (nan value = true → undef ≠ Some value → (r ∉ dom h) ∧ r ≠ prev).
Proof.
  intros Hread.
  assert (Hprev : prev ∈ dom h).
  { apply elem_of_dom. unfold Store.readMap in Hread.
    destruct (h !! prev); [eauto | done]. }
  assert (Hsame : getIsValue nan undef e id value = true ↔
            (∃ x, JsMap.get id e = Some x ∧ x = value ∧ nan value = false)
            ∨ (JsMap.get id e = None ∧ undef = Some value)).
  { unfold getIsValue. destruct (JsMap.get id e) as [x |].
    - rewrite strictEq_true. split.
      + intros [? ?]. left. eauto.
      + intros [(x' & [= <-] & ? & ?) | [? _]]; done.
    - rewrite bool_decide_eq_true. split.
      + intros ?. by right.
      + intros [(x' & ? & _) | [_ ?]]; done. }
  assert (Hnan : nan value = true → undef ≠ Some value →
            getIsValue nan undef e id value = false).
  { intros Hn Hdef. pose proof (proj1 Hsame) as Hs.
    destruct (getIsValue nan undef e id value); [| done].
    destruct (Hs eq_refl) as [(x & _ & _ & Hn') | [_ ?]]; [congruence | done]. }
  unfold onItemAddedRef. rewrite Hread. cbn [mbind option_bind].
  destruct (getIsValue nan undef e id value) eqn:E.
  - exists prev, h. split_and!; try done; try exact Hsame.
    + unfold onItemAdded. by rewrite E.
    + intros Hn Hdef. by specialize (Hnan Hn Hdef).
  - unfold Store.newMapOfMap, Store.alloc. rewrite Hread. cbn [mbind option_bind].
    set (next := fresh (dom h)).
    set (copy := JsMap.of_entries (JsMap.entries e)).
    unfold Store.mapSet, Store.readMap at 1.
    rewrite lookup_insert_eq. cbn [mbind option_bind].
    rewrite insert_insert_eq.
    assert (Hfresh : next ∉ dom h) by apply is_fresh.
    assert (Hne : next ≠ prev) by (by intros ->).
    assert (Hframe : ∀ l, l ∈ dom h →
              <[next := Store.MapObj (JsMap.set id value copy)]> h !! l = h !! l).
    { intros l Hl. apply lookup_insert_ne. by intros <-. }
    eexists next, _. split; [done |]. split_and!; try done; try exact Hsame.
    + unfold Store.readMap in *. by rewrite Hframe.
    + unfold Store.readMap. rewrite lookup_insert_eq.
      unfold onItemAdded. by rewrite E.
Qed.

End RegistryStore.

(** X5, registering NaN in a registry that maps the id to NaN already: the
    state is set to a new map with the same entries. *)
Lemma onItemAddedRef_keeps_prev_witness :
  Store.readMap 1%positive demoNumberStore = Some [("a", None)]
  ∧ ∃ r h',
      onItemAddedRef isNaN None "a" None 1%positive demoNumberStore = Some (r, h')
      ∧ r ≠ 1%positive
      ∧ Store.readMap 1%positive h' = Some [("a", None)]
      ∧ Store.readMap r h' = Some (onItemAdded isNaN None "a" None [("a", None)]).
Proof.
  assert (Hread : Store.readMap 1%positive demoNumberStore = Some [("a", None)])
    by reflexivity.
  split; [exact Hread |].
  destruct (onItemAddedRef_keeps_prev isNaN None "a" None 1%positive demoNumberStore
              [("a", None)] Hread)
    as (r & h' & Hrun & _ & Hprev & Hr & _ & _ & _ & Hnan).
  exists r, h'. split; [exact Hrun |].
  split; [exact (proj2 (Hnan eq_refl ltac:(discriminate))) |].
  split; [exact Hprev | exact Hr].
Defined.

(** The entries are the same all the while. *)
Example onItemAdded_NaN_entries :
  onItemAdded isNaN None "a" None [("a", None)] = [("a", None)]
  ∧ getIsValue isNaN None [("a", None)] "a" None = false
  ∧ getIsValue isNaN None [("a", Some 1%Z)] "a" (Some 1%Z) = true.
Proof. split_and!; reflexivity. Qed.

(** Registering Vue in a registry that holds React leaves that map alone. *)
Example onItemAddedRef_new_id :
  ∃ r h',
    onItemAddedRef noNaN None "2" vue 1%positive demoItemsStore = Some (r, h')
    ∧ Store.readMap 1%positive h' = Some [("1", react)]
    ∧ Store.readMap r h' = Some [("1", react); ("2", vue)].
Proof. eexists _, _. split_and!; reflexivity. Qed.

(* ===================================================================== *)
(** ** Items and badges *)
(* ===================================================================== *)

Section ItemsAndBadges.
Context {T H R P : Type}.
Implicit Types (p : MultiSelectProps T H R) (vp : MultiSelectValueProps).
Implicit Types (w : World H) (props : P).

Lemma badgesOf_keys p vp w w' :
  badge_key <$> badgesOf (MultiSelectValue vp (MultiSelect p w) w')
    = JsMap.keys (selectedMap p).
Proof.
  unfold MultiSelectValue. simpl.
  destruct (Nat.eqb_spec (JsMap.size (selectedMap p)) 0) as [Hz | _]; simpl.
  - apply length_zero_iff_nil in Hz. unfold JsMap.size in Hz. by rewrite Hz.
  - apply badge_keys.
Qed.

Lemma selectedMap_toggled_set p v :
  selectedMap (toggled p v) =
    if JsMap.has (getId p v) (selectedMap p)
    then JsMap.delete (getId p v) (selectedMap p)
    else JsMap.set (getId p v) v (selectedMap p).
Proof.
  rewrite selectedMap_toggled.
  destruct (JsMap.has (getId p v) (selectedMap p)) eqn:E; [done |].
  apply JsMapFacts.has_false in E. by rewrite JsMapFacts.set_fresh.
Qed.

(** X6: an item and the trigger agree.  The item is rendered with
    [isSelected] true exactly when its id occurs among the ids of [values],
    and exactly when the trigger has a badge keyed by that id. *)
Theorem item_selected_iff_badge p vp w w' (value : T) props :
  ∃ isSelected,
    item_children (MultiSelectItem (MultiSelect p w) value props)
      = renderItem p value isSelected
    ∧ (isSelected = true ↔ getId p value ∈ getId p <$> values p)
    ∧ (isSelected = true ↔
         getId p value ∈ badge_key <$> badgesOf (MultiSelectValue vp (MultiSelect p w) w')).
Proof.
  exists (JsMap.has (getId p value) (selectedMap p)). split_and!.
  - done.
  - apply selectedMap_has.
  - rewrite badgesOf_keys. apply JsMapFacts.has_true.
Qed.

(** X7: selecting an item reports the toggled selection, and once the host
    has taken it over the item's own selected state is the opposite of
    what it was, while every item with another id is selected as before. *)
Theorem item_select_flips p w (v : T) props (f : list T → H → H) :
  onValuesChange p = Some f →
  (∀ w0, item_onSelect (MultiSelectItem (MultiSelect p w) v props) w0
         = callHost (f (values (toggled p v))) w0)
  ∧ ∀ u, JsMap.has (getId p u) (selectedMap (toggled p v)) =
         if decide (getId p u = getId p v)
         then negb (JsMap.has (getId p u) (selectedMap p))
         else JsMap.has (getId p u) (selectedMap p).
Proof.
  intros Hf. split.
  - intros w0. simpl. unfold toggleValue. by rewrite Hf.
  - intros u. rewrite selectedMap_toggled_set.
    destruct (JsMap.has (getId p v) (selectedMap p)) eqn:E.
    + rewrite has_delete by apply selectedMap_wf.
      case_decide as Hu; [| done]. by rewrite Hu, E.
    + rewrite has_set. case_decide as Hu; [| done]. by rewrite Hu, E.
Qed.

(** X8: a toggle changes the number of badges by exactly one: one fewer
    when the id was selected, one more when it was not; taking the only
    badge away brings the placeholder back. *)
Theorem toggle_changes_badges_by_one p vp w w' (v : T) :
  let before := badgesOf (MultiSelectValue vp (MultiSelect p w) w') in
  let after := badgesOf (MultiSelectValue vp (MultiSelect (toggled p v) w) w') in
  (if JsMap.has (getId p v) (selectedMap p)
   then S (length after) = length before
   else length after = S (length before))
  ∧ (JsMap.has (getId p v) (selectedMap p) = true → length before = 1 →
       MultiSelectValue vp (MultiSelect (toggled p v) w) w'
         = PlaceholderSpan (placeholder vp)).
Proof.
  intros before after.
  assert (Hlen : ∀ q : MultiSelectProps T H R,
                   length (badgesOf (MultiSelectValue vp (MultiSelect q w) w'))
                      = JsMap.size (selectedMap q)).
  { intros q. rewrite <- (length_fmap badge_key), badgesOf_keys.
    exact (length_fmap fst (selectedMap q)). }
  subst before after. rewrite !Hlen.
  assert (Hsize : if JsMap.has (getId p v) (selectedMap p)
                  then S (JsMap.size (selectedMap (toggled p v))) = JsMap.size (selectedMap p)
                  else JsMap.size (selectedMap (toggled p v)) = S (JsMap.size (selectedMap p))).
  { rewrite selectedMap_toggled.
    destruct (JsMap.has (getId p v) (selectedMap p)) eqn:E.
    - by apply size_delete.
    - unfold JsMap.size. rewrite length_app. simpl. lia. }
  split; [done |].
  intros Hhas Hone. rewrite Hhas in Hsize.
  unfold MultiSelectValue. simpl.
  replace (JsMap.size (selectedMap (toggled p v))) with 0 by lia. done.
Qed.

(** X9: without [onValuesChange] the selection is read-only: selecting an
    item leaves the world as it is, and a click on a badge does nothing
    but stop the propagation of the event. *)
Theorem no_callback_no_change p vp w w' :
  onValuesChange p = None →
  (∀ (u : T) props w0,
     item_onSelect (MultiSelectItem (MultiSelect p w) u props) w0 = w0)
  ∧ ∀ b handler,
      b ∈ badgesOf (MultiSelectValue vp (MultiSelect p w) w') →
      badge_onClick b = Some handler →
      ∀ e w0, handler e w0 = (stopPropagation e, w0).
Proof.
  intros Hnone.
  assert (Htoggle : ∀ u w0, toggleValue p u w0 = w0).
  { intros u w0. unfold toggleValue. by rewrite Hnone. }
  split; [intros u props w0; apply Htoggle |].
  intros b handler Hb Hclick e w0.
  unfold MultiSelectValue in Hb. simpl in Hb.
  destruct (Nat.eqb (JsMap.size (selectedMap p)) 0); simpl in Hb;
    [by apply elem_of_nil in Hb |].
  apply list_elem_of_fmap in Hb as ([id value] & -> & _).
  simpl in Hclick. destruct (default true (clickToRemove vp)); [| done].
  injection Hclick as <-. by rewrite Htoggle.
Qed.

End ItemsAndBadges.

(** X7, selecting Vue with React and Vue selected. *)
Lemma item_select_flips_witness :
  onValuesChange (demoProps [react; vue]) = Some (λ vs _, vs)
  ∧ JsMap.has (fw_id vue) (selectedMap (toggled (demoProps [react; vue]) vue))
      = negb (JsMap.has (fw_id vue) (selectedMap (demoProps [react; vue]))).
Proof.
  split; [reflexivity |].
  exact (proj2 (item_select_flips (demoProps [react; vue]) demoWorld vue tt
                  (λ vs _, vs) eq_refl) vue).
Defined.

(** X9, with the callback left out. *)
Lemma no_callback_no_change_witness :
  onValuesChange (readOnlyProps [react]) = None
  ∧ ∀ w0, item_onSelect
            (MultiSelectItem (MultiSelect (readOnlyProps [react]) demoWorld) vue tt) w0
          = w0.
Proof.
  split; [reflexivity |].
  intros w0.
  exact (proj1 (no_callback_no_change (readOnlyProps [react]) demoValueProps
                  demoWorld demoWorld eq_refl) vue tt w0).
Defined.

(* ===================================================================== *)
(** ** More on the overflow effect *)
(* ===================================================================== *)

Section OverflowMore.
Variable lay : Layout.

(** X10: when the row fits with every badge shown, the measuring effect
    hides nothing: it stores 0 and leaves every badge with an empty
    [display], also those an earlier run had hidden. *)
Theorem row_that_fits_is_left_shown (container : list HTMLElement) spare :
  fits lay (trailingHidden (length container) 0) = true →
  ∃ run,
    overflowEffect lay (length container + spare) (Some container) false = Returned run
    ∧ run_amount run = 0
    ∧ run_hiddenAt run = []
    ∧ run_ref run = Some (replicate (length container) {| style_display := "" |})
    ∧ run_entered run ≤ 1.
Proof.
  intros Hfit.
  destruct (overflowEffect_measured lay container spare)
    as (k & run & Hrun & Hk & Href & Hamt & Hat & Hent & Hno & _).
  assert (Hk0 : k = 0).
  { destruct k as [|k]; [done |]. rewrite Hno in Hfit by lia. done. }
  rewrite Hk0 in Href, Hamt, Hat, Hent.
  exists run. rewrite Hamt, Hat, Href, Hent. split_and!; try done.
  - unfold trailingHidden. by rewrite Nat.sub_0_r, app_nil_r.
  - case_bool_decide; lia.
Qed.

(** X11: a measuring run forgets what was hidden before.  Two rows with
    the same number of badges give the same run whatever their [display]
    values were, and running the effect again on the row it left gives the
    same run again. *)
Theorem measuring_forgets_earlier_hiding :
  (∀ fuel (c1 c2 : list HTMLElement),
     length c1 = length c2 →
     overflowEffect lay fuel (Some c1) false = overflowEffect lay fuel (Some c2) false)
  ∧ ∀ (container : list HTMLElement) spare,
      ∃ run els,
        overflowEffect lay (length container + spare) (Some container) false
          = Returned run
        ∧ run_ref run = Some els
        ∧ length els = length container
        ∧ overflowEffect lay (length container + spare) (Some els) false
          = Returned run.
Proof.
  assert (Hsame : ∀ fuel (c1 c2 : list HTMLElement),
     length c1 = length c2 →
     overflowEffect lay fuel (Some c1) false = overflowEffect lay fuel (Some c2) false).
  { intros fuel c1 c2 Hlen. unfold overflowEffect.
    by rewrite !length_fmap, !setDisplay_all, Hlen. }
  split; [exact Hsame |].
  intros container spare.
  destruct (overflowEffect_measured lay container spare)
    as (k & run & Hrun & Hk & Href & _).
  exists run, (trailingHidden (length container) k).
  assert (Hlen : length (trailingHidden (length container) k) = length container)
    by by apply trailingHidden_length.
  split_and!; try done.
  rewrite <- Hrun. by apply Hsame.
Qed.

End OverflowMore.

Section OpeningThePopover.
Context {T H R : Type}.
Variable lay : Layout.
Implicit Types (p : MultiSelectProps T H R) (vp : MultiSelectValueProps).
Implicit Types (w : World H).

(** X12: with ["wrap-when-open"], the badges a round hid while the popover
    was closed stay hidden when it opens.  The round after opening stores
    0 and writes to no badge, so the row still has its [k] hidden badges,
    and the [+N] badge that stood for them is gone. *)
Theorem opening_keeps_badges_hidden p vp w (els : list HTMLElement) spare :
  values p ≠ [] →
  default wrap_when_open (overflowBehavior vp) = wrap_when_open →
  st_open w = false →
  ∃ k row w1,
    effectRound lay (length els + spare) p vp w els = Returned (w1, Some row)
    ∧ st_overflowAmount w1 = k
    ∧ length (filter (λ el, isHidden el = true) row) = k
    ∧ ∀ fuel,
        effectRound lay fuel p vp (setOpen true w1) row
          = Returned (setOverflowAmount 0 (setOpen true w1), Some row)
        ∧ overflowBadgeOf
            (MultiSelectValue vp
               (MultiSelect p (setOverflowAmount 0 (setOpen true w1)))
               (setOverflowAmount 0 (setOpen true w1))) = None.
Proof.
  intros Hne Hob Hclosed.
  assert (Hwrap : ∀ w0, shouldWrap vp (MultiSelect p w0) = st_open w0).
  { intros w0. unfold shouldWrap. simpl. by rewrite Hob. }
  assert (Hsize : Nat.eqb (JsMap.size (selectedMap p)) 0 = false).
  { apply Nat.eqb_neq. intros Hz. by apply selectedMap_empty in Hz. }
  assert (Href : ∀ w0 w0' row,
    committedRef (MultiSelectValue vp (MultiSelect p w0) w0') row = Some row).
  { intros w0 w0' row. unfold MultiSelectValue. simpl. by rewrite Hsize. }
  destruct (overflowEffect_measured lay els spare)
    as (k & run & Hrun & Hk & Hrow & Hamt & _).
  exists k, (trailingHidden (length els) k), (setOverflowAmount k w).
  split_and!.
  - unfold effectRound. by rewrite Href, Hwrap, Hclosed, Hrun, Hamt, Hrow.
  - done.
  - apply trailingHidden_count.
  - intros fuel. split.
    + unfold effectRound. rewrite Href, Hwrap. done.
    + unfold MultiSelectValue. simpl. by rewrite Hsize.
Qed.

End OpeningThePopover.

(** X10, two badges of an earlier run in a trigger wide enough for both. *)
Lemma row_that_fits_is_left_shown_witness :
  fits demoLayout (trailingHidden (length twoBadges) 0) = true
  ∧ ∃ run,
      overflowEffect demoLayout (length twoBadges + 0) (Some twoBadges) false
        = Returned run
      ∧ run_amount run = 0
      ∧ run_ref run = Some (replicate (length twoBadges) {| style_display := "" |}).
Proof.
  assert (Hfit : fits demoLayout (trailingHidden (length twoBadges) 0) = true)
    by reflexivity.
  split; [exact Hfit |].
  destruct (row_that_fits_is_left_shown demoLayout twoBadges 0 Hfit)
    as (run & Hrun & Hamt & _ & Href & _).
  exists run. split; [exact Hrun |]. split; [exact Hamt | exact Href].
Defined.

(** X12, five frameworks in the narrow trigger. *)
Lemma opening_keeps_badges_hidden_witness :
  values (demoProps fiveSelected) ≠ []
  ∧ default wrap_when_open (overflowBehavior demoWrapWhenOpen) = wrap_when_open
  ∧ st_open demoWorld = false
  ∧ ∃ k row w1,
      effectRound demoLayout (length fiveBadges + 0) (demoProps fiveSelected)
        demoWrapWhenOpen demoWorld fiveBadges = Returned (w1, Some row)
      ∧ st_overflowAmount w1 = k
      ∧ length (filter (λ el, isHidden el = true) row) = k
      ∧ effectRound demoLayout 0 (demoProps fiveSelected) demoWrapWhenOpen
          (setOpen true w1) row
        = Returned (setOverflowAmount 0 (setOpen true w1), Some row).
Proof.
  assert (Hne : values (demoProps fiveSelected) ≠ []) by discriminate.
  split; [exact Hne |]. split; [reflexivity |]. split; [reflexivity |].
  destruct (opening_keeps_badges_hidden demoLayout (demoProps fiveSelected)
              demoWrapWhenOpen demoWorld fiveBadges 0 Hne eq_refl eq_refl)
    as (k & row & w1 & Hround & Hamt & Hcount & Hopen).
  exists k, row, w1. split; [exact Hround |]. split; [exact Hamt |].
  split; [exact Hcount |]. exact (proj1 (Hopen 0)).
Defined.

(** Three of the five are hidden while closed, and still are once open. *)
Example opening_keeps_three_hidden :
  effectRound demoLayout 5 (demoProps fiveSelected) demoWrapWhenOpen
    demoWorld fiveBadges
    = Returned (setOverflowAmount 3 demoWorld, Some (trailingHidden 5 3))
  ∧ effectRound demoLayout 5 (demoProps fiveSelected) demoWrapWhenOpen
      (setOpen true (setOverflowAmount 3 demoWorld)) (trailingHidden 5 3)
    = Returned (setOverflowAmount 0 (setOpen true (setOverflowAmount 3 demoWorld)),
                Some (trailingHidden 5 3)).
Proof. split; vm_compute; reflexivity. Qed.

(* ===================================================================== *)
(** ** The search value over a series of edits *)
(* ===================================================================== *)

Section SearchEdits.
Context {T H R : Type}.
Implicit Types (p : MultiSelectProps T H R) (w : World H).

(** The world after the input has reported [edits], one after the other,
    each through the setter of the render at that point. *)
Lemma edits_internal p w edits :
  onInputChange p = None →
  foldl (λ w0 s0, ctx_setSearchValue (MultiSelect p w0) s0 w0) w edits
    = foldl (λ w0 s0, setInternalSearch s0 w0) w edits.
Proof.
  intros Hon.
  change (foldl (λ w0 s0, setSearchValue p s0 w0) w edits
          = foldl (λ w0 s0, setInternalSearch s0 w0) w edits).
  unfold setSearchValue. by rewrite Hon.
Qed.

Lemma edits_host p w (f : string → H → H) edits :
  onInputChange p = Some f →
  foldl (λ w0 s0, ctx_setSearchValue (MultiSelect p w0) s0 w0) w edits
    = foldl (λ w0 s0, callHost (f s0) w0) w edits.
Proof.
  intros Hon.
  change (foldl (λ w0 s0, setSearchValue p s0 w0) w edits
          = foldl (λ w0 s0, callHost (f s0) w0) w edits).
  unfold setSearchValue. by rewrite Hon.
Qed.

Lemma internal_edits_keep_host w edits :
  host (foldl (λ w0 s0, setInternalSearch s0 w0) w edits) = host w.
Proof.
  revert w. induction edits as [|s0 edits IH]; intros w; simpl; [done |].
  by rewrite IH.
Qed.

Lemma host_edits w (f : string → H → H) edits :
  st_internalSearch (foldl (λ w0 s0, callHost (f s0) w0) w edits) = st_internalSearch w
  ∧ host (foldl (λ w0 s0, callHost (f s0) w0) w edits)
    = foldl (λ h s0, f s0 h) (host w) edits.
Proof.
  revert w. induction edits as [|s0 edits IH]; intros w; simpl; [done |].
  destruct (IH (callHost (f s0) w)) as [-> ->]. done.
Qed.

(** X13: left to itself (neither [inputValue] nor [onInputChange]), the
    search box shows what was typed last; the host state is not touched. *)
Theorem search_uncontrolled_round_trip p w s edits :
  inputValue p = None → onInputChange p = None →
  let w' := foldl (λ w0 s0, ctx_setSearchValue (MultiSelect p w0) s0 w0) w
              (edits ++ [s]) in
  ctx_searchValue (MultiSelect p w') = s ∧ host w' = host w.
Proof.
  intros Hin Hon. cbn zeta. rewrite edits_internal by done. split.
  - simpl. unfold searchValue. rewrite Hin. by rewrite foldl_app.
  - apply internal_edits_keep_host.
Qed.

(** X14: with [inputValue] but no [onInputChange] the edits reach nobody
    who could act on them: the host state stays as it is and the search
    box keeps showing [inputValue]. *)
Theorem search_value_pinned p w fixed edits :
  inputValue p = Some fixed → onInputChange p = None →
  let w' := foldl (λ w0 s0, ctx_setSearchValue (MultiSelect p w0) s0 w0) w edits in
  ctx_searchValue (MultiSelect p w') = fixed ∧ host w' = host w.
Proof.
  intros Hin Hon. cbn zeta. rewrite edits_internal by done. split.
  - simpl. unfold searchValue. by rewrite Hin.
  - apply internal_edits_keep_host.
Qed.

(** X15: with [onInputChange] but no [inputValue] every edit goes to the
    host, in order, and the search box keeps showing the internal search
    state, which no edit changes. *)
Theorem search_edits_go_to_host p w (f : string → H → H) edits :
  onInputChange p = Some f → inputValue p = None →
  let w' := foldl (λ w0 s0, ctx_setSearchValue (MultiSelect p w0) s0 w0) w edits in
  ctx_searchValue (MultiSelect p w') = st_internalSearch w
  ∧ host w' = foldl (λ h s0, f s0 h) (host w) edits.
Proof.
  intros Hon Hin. cbn zeta. rewrite (edits_host p w f) by done.
  destruct (host_edits w f edits) as [Hint Hhost]. split; [| done].
  simpl. unfold searchValue. by rewrite Hin.
Qed.

End SearchEdits.

(** X13, typing ["re"] and then ["rea"] into the README's example. *)
Lemma search_uncontrolled_round_trip_witness :
  inputValue (demoProps []) = None ∧ onInputChange (demoProps []) = None
  ∧ ctx_searchValue
      (MultiSelect (demoProps [])
         (foldl (λ w0 s0, ctx_setSearchValue (MultiSelect (demoProps []) w0) s0 w0)
            demoWorld (["re"] ++ ["rea"]))) = "rea".
Proof.
  split; [reflexivity |]. split; [reflexivity |].
  exact (proj1 (search_uncontrolled_round_trip (demoProps []) demoWorld "rea" ["re"]
                  eq_refl eq_refl)).
Defined.

(** X14, with the search value fixed by the host. *)
Lemma search_value_pinned_witness :
  inputValue (readOnlyProps []) = Some "fixed"
  ∧ onInputChange (readOnlyProps []) = None
  ∧ ctx_searchValue
      (MultiSelect (readOnlyProps [])
         (foldl (λ w0 s0, ctx_setSearchValue (MultiSelect (readOnlyProps []) w0) s0 w0)
            demoWorld ["a"; "ab"])) = "fixed".
Proof.
  split; [reflexivity |]. split; [reflexivity |].
  exact (proj1 (search_value_pinned (readOnlyProps []) demoWorld "fixed" ["a"; "ab"]
                  eq_refl eq_refl)).
Defined.

(** X15, with a host that listens but passes no value back. *)
Lemma search_edits_go_to_host_witness :
  onInputChange hostSearchProps = Some (λ _ h, h)
  ∧ inputValue hostSearchProps = None
  ∧ ctx_searchValue
      (MultiSelect hostSearchProps
         (foldl (λ w0 s0, ctx_setSearchValue (MultiSelect hostSearchProps w0) s0 w0)
            demoWorld ["a"; "ab"])) = "".
Proof.
  split; [reflexivity |]. split; [reflexivity |].
  exact (proj1 (search_edits_go_to_host hostSearchProps demoWorld (λ _ h, h)
                  ["a"; "ab"] eq_refl eq_refl)).
Defined.
